(** * Hash-map benchmark harness: data generators, histogram sort and the
      random-access trial

    Shallow embedding of [src/hashmap_benchmarks.cpp] and
    [src/hashmap_random_access.cpp].

    - [int] is a 32-bit signed integer, kept as a [Z]; signed overflow is
      undefined behaviour in C++ and is an explicit outcome here.
    - [size_t] is a 64-bit unsigned integer, kept as an [N] (sizes) or as a
      [Z] with its wrap-around written out (the lookup cursor).
    - [std::vector<int>] is a [list Z]; an access outside the vector is
      undefined behaviour and is an explicit outcome as well.
    - The [Hashmap] template parameter is a type class: the operations the
      two translation units use, with the contract every unordered
      associative container with unique keys satisfies.  Nothing is
      assumed about the iteration order.
    - [std::mt19937], [std::uniform_int_distribution<>] and [std::shuffle]
      come from the C++ standard library; they are a second type class. *)

From Stdlib Require Import ZArith List Lia Permutation Sorted.
From stdpp Require Import base option list gmap sorting.

Local Open Scope Z_scope.

(** ** Outcomes of a run *)

Inductive UBKind : Type :=
  | SignedOverflow        (* an [int] computation left the range of [int] *)
  | OutOfBounds           (* [v[i]] with [i >= v.size()] *)
  | BadDistributionBounds (* [uniform_int_distribution(a, b)] with [a > b] *).

Inductive Outcome (A : Type) : Type :=
  | Ok (a : A)
  | UB (k : UBKind).
Arguments Ok {A} a.
Arguments UB {A} k.

#[global] Instance Outcome_ret : MRet Outcome := fun A a => Ok a.
#[global] Instance Outcome_bind : MBind Outcome := fun A B f c =>
  match c with
  | Ok a => f a
  | UB k => UB k
  end.
#[global] Instance Outcome_fmap : FMap Outcome := fun A B f c =>
  match c with
  | Ok a => Ok (f a)
  | UB k => UB k
  end.

Definition completes {A} (c : Outcome A) : Prop := ∃ a, c = Ok a.

(** ** Machine integers *)

Definition INT_MAX : Z := 2147483647.
Definition INT_MIN : Z := -2147483648.
Definition SIZE_MAX : Z := 18446744073709551615.

Definition in_int (z : Z) : bool := (INT_MIN <=? z) && (z <=? INT_MAX).

(** The result of an [int] operation whose mathematical value is [z]. *)
Definition int_result (z : Z) : Outcome Z :=
  if in_int z then Ok z else UB SignedOverflow.

Definition int_add (a b : Z) : Outcome Z := int_result (a + b).
Definition int_mul (a b : Z) : Outcome Z := int_result (a * b).

(** [static_cast<int>(n)] for a [size_t] value: reduction modulo 2^32. *)
Definition static_cast_int (n : N) : Z :=
  (Z.of_N n + 2147483648) mod 4294967296 - 2147483648.

(** [size_t] arithmetic: reduction modulo 2^64. *)
Definition wrap_size_t (z : Z) : Z := z mod (SIZE_MAX + 1).

(** [std::vector<int> data(size)]: [size] value-initialised elements. *)
Definition vector_of_size (size : N) : list Z := replicate (N.to_nat size) 0.

(** [v[i]] for reading. *)
Definition vector_at (v : list Z) (i : Z) : Outcome Z :=
  if (0 <=? i) && (i <? Z.of_nat (length v))
  then match v !! Z.to_nat i with
       | Some x => Ok x
       | None => UB OutOfBounds
       end
  else UB OutOfBounds.

(** ** The map abstraction under test

    [Hashmap] lists what the two translation units ask of the template
    parameter: default construction, [find], writing through the reference
    [operator[]] returns, [reserve], and forward iteration over the
    (key, mapped value) pairs. *)

Class Hashmap (M : Type) : Type := {
  (** [Hashmap m;] *)
  hm_empty : M;
  (** [m.find(k)]: the mapped value, [None] for [m.end()] *)
  hm_find : M → Z → option Z;
  (** an assignment through the reference [m[k]] *)
  hm_store : M → Z → Z → M;
  (** [m.reserve(n)] *)
  hm_reserve : M → N → M;
  (** the pairs [(i->first, i->second)] from [m.begin()] to [m.end()] *)
  hm_items : M → list (Z * Z)
}.

(** The contract of an unordered associative container with unique keys.
    The order of [hm_items] is left open. *)
Class HashmapLaws (M : Type) `{Hashmap M} : Prop := {
  hm_find_empty k : hm_find hm_empty k = None;
  hm_find_store m k v k' :
    hm_find (hm_store m k v) k' = if decide (k = k') then Some v else hm_find m k';
  hm_find_reserve m n k : hm_find (hm_reserve m n) k = hm_find m k;
  hm_items_NoDup m : NoDup (hm_items m).*1;
  hm_items_find m k v : (k, v) ∈ hm_items m ↔ hm_find m k = Some v
}.

Section MapOperators.
Context {M : Type} `{Hashmap M}.

(** [m[k]]: the mapped value, after inserting a value-initialised one
    when [k] is absent. *)
Definition hm_subscript (m : M) (k : Z) : M * Z :=
  match hm_find m k with
  | Some v => (m, v)
  | None => (hm_store m k 0, 0)
  end.

(** [m[k]++] *)
Definition hm_increment (m : M) (k : Z) : Outcome M :=
  let '(m1, v) := hm_subscript m k in
  v' ← int_add v 1;
  Ok (hm_store m1 k v').

(** [m[k] = v] *)
Definition hm_assign (m : M) (k v : Z) : M :=
  let '(m1, _) := hm_subscript m k in
  hm_store m1 k v.
End MapOperators.

(** ** Pseudo-random facilities of the standard library *)

Class StdRandom (G : Type) : Type := {
  (** [std::mt19937 gen(seed)] *)
  mt19937 : Z → G;
  (** [dis(gen)] for a [std::uniform_int_distribution<> dis(a, b)] *)
  uniform_draw : Z → Z → G → Z * G;
  (** [std::shuffle(v.begin(), v.end(), gen)] *)
  shuffle : list Z → G → list Z * G
}.

Class StdRandomLaws (G : Type) `{StdRandom G} : Prop := {
  uniform_draw_range a b g : a ≤ b → a ≤ (uniform_draw a b g).1 ≤ b;
  shuffle_Permutation l g : (shuffle l g).1 ≡ₚ l
}.

(** [std::uniform_int_distribution<> dis(a, b)] requires [a <= b]. *)
Definition uniform_int_distribution (a b : Z) : Outcome (Z * Z) :=
  if a <=? b then Ok (a, b) else UB BadDistributionBounds.

Section Fill.
Context {G : Type} `{StdRandom G}.

(** [for (auto& val : data) val = dis(gen);] *)
Fixpoint fill (dis : Z * Z) (data : list Z) (gen : G) : list Z * G :=
  match data with
  | [] => ([], gen)
  | _ :: rest =>
      let '(val, gen) := uniform_draw dis.1 dis.2 gen in
      let '(rest, gen) := fill dis rest gen in
      (val :: rest, gen)
  end.
End Fill.

(** ** hashmap_benchmarks.cpp *)

Module Benchmarks.

(** [std::iota(first, last, value)]: for each position, [*first = value;
    ++value]. *)
Fixpoint iota (range : list Z) (value : Z) : Outcome (list Z) :=
  match range with
  | [] => Ok []
  | _ :: rest =>
      value' ← int_add value 1;
      filled ← iota rest value';
      Ok (value :: filled)
  end.

(** [std::iota(v.rbegin(), v.rend(), value)]: the same walk over the
    reversed range. *)
Definition iota_reverse (range : list Z) (value : Z) : Outcome (list Z) :=
  reverse <$> iota (reverse range) value.

Definition GenerateAscendingData (size : N) : Outcome (list Z) :=
  let data := vector_of_size size in
  iota data 0.

Definition GenerateDescendingData (size : N) : Outcome (list Z) :=
  let data := vector_of_size size in
  iota_reverse data 0.

Section Random.
Context {G : Type} `{StdRandom G}.

Definition GenerateRandomData (size : N) : Outcome (list Z) :=
  let data := vector_of_size size in
  let gen := mt19937 42 in
  dis ← uniform_int_distribution 0 (static_cast_int size);
  Ok (fill dis data gen).1.
End Random.

(** The variables of the reconstruction loops: the vector being
    overwritten, [index], and (for the statements about bounds) the
    positions written so far, latest first. *)
Record Rebuild : Type := {
  data : list Z;
  index : Z;
  written : list Z
}.

(** [data[index++] = key]: [index++] is evaluated first (the old value
    [i], and the increment), then the element at [i] is assigned. *)
Definition write_next (key : Z) (st : Rebuild) : Outcome Rebuild :=
  let i := index st in
  index' ← int_add i 1;
  if (0 <=? i) && (i <? Z.of_nat (length (data st)))
  then Ok {| data := <[Z.to_nat i := key]> (data st);
             index := index';
             written := i :: written st |}
  else UB OutOfBounds.

(** [for (int j = 0; j < second; ++j) data[index++] = first;] with
    [remaining] iterations to go. *)
Fixpoint write_copies (key : Z) (remaining : nat) (st : Rebuild) : Outcome Rebuild :=
  match remaining with
  | O => Ok st
  | S remaining =>
      st ← write_next key st;
      write_copies key remaining st
  end.

(** [for (auto i = sorted.begin(); i != sorted.end(); i++) ...] over the
    pairs [i] visits. *)
Fixpoint rebuild (items : list (Z * Z)) (st : Rebuild) : Outcome Rebuild :=
  match items with
  | [] => Ok st
  | (first, second) :: items =>
      st ← write_copies first (Z.to_nat second) st;
      rebuild items st
  end.

Section HistogramSort.
Context {M : Type} `{Hashmap M}.

(** [for (int val : data) sorted[val]++;] starting from the map [sorted] *)
Fixpoint count_into (sorted : M) (data : list Z) : Outcome M :=
  match data with
  | [] => Ok sorted
  | val :: rest =>
      sorted ← hm_increment sorted val;
      count_into sorted rest
  end.

Definition count_phase (data : list Z) : Outcome M :=
  count_into hm_empty data.

(** The whole of [histogramSort], keeping the final loop variables. *)
Definition histogramSort_run (data : list Z) : Outcome Rebuild :=
  sorted ← count_phase data;
  rebuild (hm_items sorted) {| data := data; index := 0; written := [] |}.

Definition histogramSort (input : list Z) : Outcome (list Z) :=
  data <$> histogramSort_run input.
End HistogramSort.

Section Trial.
Context {G : Type} `{StdRandom G} {M : Type}.

(** The timed loop of [BM_HistogramSort]:
    [for (auto _ : state) { copy = data; histogramSort<Hashmap>(copy); }].
    Each call of [histogramSort] constructs a table of its own
    ([Hashmap sorted;]), and two tables of one type need not iterate in
    the same order; [tables] holds, iteration after iteration, the table
    the call constructs, with its operations.  The vectors the calls
    return, which the benchmark discards, are collected. *)
Fixpoint timed_loop (data : list Z) (tables : list (Hashmap M))
    : Outcome (list (list Z)) :=
  match tables with
  | [] => Ok []
  | table :: tables =>
      let copy := data in
      result ← @histogramSort M table copy;
      results ← timed_loop data tables;
      Ok (result :: results)
  end.

Definition BM_HistogramSort (range0 : N) (tables : list (Hashmap M))
    : Outcome (list (list Z)) :=
  data ← GenerateRandomData range0;
  timed_loop data tables.
End Trial.

End Benchmarks.

(** ** hashmap_random_access.cpp *)

Module RandomAccess.

Section Random.
Context {G : Type} `{StdRandom G}.

Definition GenerateRandomData (size : N) : Outcome (list Z) :=
  let data := vector_of_size size in
  let gen := mt19937 42 in
  bound ← int_mul (static_cast_int size) 2;
  dis ← uniform_int_distribution 0 bound;
  Ok (fill dis data gen).1.
End Random.

(** One pass through the body of the measured loop: the cursor it read
    at, the key it looked up, and what [map.find(key)] gave. *)
Record Lookup : Type := {
  cursor : Z;
  key : Z;
  found : option Z
}.

Section Trial.
Context {G : Type} `{StdRandom G} {M : Type} `{Hashmap M}.

(** [for (int val : data) map[val] = val;] *)
Definition populate (map : M) (data : list Z) : M :=
  foldl (λ map val, hm_assign map val val) map data.

(** The body of [for (auto _ : state)]; the second component is
    [lookup_idx] after the pass. *)
Definition lookup_pass (map : M) (lookups : list Z) (lookup_idx : Z)
    : Outcome (Lookup * Z) :=
  key ← vector_at lookups lookup_idx;
  let found := hm_find map key in
  let next := wrap_size_t (lookup_idx + 1) in
  let next := if Z.of_nat (length lookups) <=? next then 0 else next in
  Ok ({| cursor := lookup_idx; key := key; found := found |}, next).

(** [iterations] passes, the number the benchmark framework settles on. *)
Fixpoint measured_loop (map : M) (lookups : list Z) (iterations : nat)
    (lookup_idx : Z) : Outcome (list Lookup * Z) :=
  match iterations with
  | O => Ok ([], lookup_idx)
  | S iterations =>
      '(pass, lookup_idx) ← lookup_pass map lookups lookup_idx;
      '(passes, lookup_idx) ← measured_loop map lookups iterations lookup_idx;
      Ok (pass :: passes, lookup_idx)
  end.

(** The trial once the keys are generated: setup, then the measured
    loop from cursor 0. *)
Definition trial (size : N) (data : list Z) (iterations : nat)
    : Outcome (list Lookup * Z) :=
  let map := populate (hm_reserve hm_empty size) data in
  let lookups := (shuffle data (mt19937 123)).1 in
  measured_loop map lookups iterations 0.

Definition BM_RandomAccess (size : N) (iterations : nat)
    : Outcome (list Lookup * Z) :=
  data ← GenerateRandomData size;
  trial size data iterations.
End Trial.

End RandomAccess.

(** ** Implementations of the two interfaces

    Two map implementations with different iteration orders, and one
    implementation of the pseudo-random facilities.  They show that the
    contracts above can be met, and they run. *)

(** A map iterated in the order of stdpp's [gmap] (the order of the keys'
    binary encodings, unrelated to insertion order). *)
Module TrieMap.
Definition t : Type := gmap Z Z.

#[global] Instance hashmap : Hashmap t := {|
  hm_empty := (∅ : gmap Z Z);
  hm_find := λ (m : gmap Z Z) k, m !! k;
  hm_store := λ (m : gmap Z Z) k v, <[k := v]> m;
  hm_reserve := λ (m : gmap Z Z) _, m;
  hm_items := λ (m : gmap Z Z), map_to_list m
|}.
End TrieMap.

(** A map iterated in the order in which its keys were first inserted. *)
Module InsertionMap.
Definition t : Type := list (Z * Z).

Fixpoint find (m : t) (k : Z) : option Z :=
  match m with
  | [] => None
  | (k', v) :: m => if decide (k' = k) then Some v else find m k
  end.

Fixpoint store (m : t) (k v : Z) : t :=
  match m with
  | [] => [(k, v)]
  | (k', v') :: m =>
      if decide (k' = k) then (k, v) :: m else (k', v') :: store m k v
  end.

(** Each key once, with the value [find] gives it. *)
Fixpoint items (m : t) : list (Z * Z) :=
  match m with
  | [] => []
  | (k, v) :: m => (k, v) :: filter (λ p, p.1 ≠ k) (items m)
  end.

#[global] Instance hashmap : Hashmap t := {|
  hm_empty := [];
  hm_find := find;
  hm_store := store;
  hm_reserve := λ m _, m;
  hm_items := items
|}.
End InsertionMap.

(** The Mersenne Twister of the C++ standard ([mt19937]: 32-bit words,
    n = 624, m = 397, r = 31), a multiply-and-shift reduction of its
    output to [[a, b]], and a shuffle that draws the next element among
    those left. *)
Module MT.
Record state : Type := { words : list Z; pos : nat }.

Definition mask32 (z : Z) : Z := Z.land z 4294967295.

Fixpoint seed_words (count : nat) (i prev : Z) : list Z :=
  match count with
  | O => []
  | S count =>
      let x := mask32 (1812433253 * Z.lxor prev (Z.shiftr prev 30) + i) in
      x :: seed_words count (i + 1) x
  end.

Definition seed (s : Z) : state :=
  let x0 := mask32 s in
  {| words := x0 :: seed_words 623 1 x0; pos := 624 |}.

Definition word (ws : list Z) (i : nat) : Z := default 0 (ws !! i).

Definition twist_at (ws : list Z) (i : nat) : list Z :=
  let y := Z.lor (Z.land (word ws i) 2147483648)
                 (Z.land (word ws ((i + 1) mod 624)) 2147483647) in
  let v := Z.lxor (Z.lxor (word ws ((i + 397) mod 624)) (Z.shiftr y 1))
                  (if Z.odd y then 2567483615 else 0) in
  <[i := v]> ws.

Definition twist (ws : list Z) : list Z := foldl twist_at ws (seq 0 624).

Definition temper (y : Z) : Z :=
  let y := Z.lxor y (Z.shiftr y 11) in
  let y := Z.lxor y (Z.land (Z.shiftl y 7) 2636928640) in
  let y := Z.lxor y (Z.land (Z.shiftl y 15) 4022730752) in
  Z.lxor y (Z.shiftr y 18).

Definition next (st : state) : Z * state :=
  let st := if decide (624 ≤ pos st)%nat
            then {| words := twist (words st); pos := 0 |} else st in
  (temper (word (words st) (pos st)),
   {| words := words st; pos := S (pos st) |}).

(** [gen.discard(n)] *)
Fixpoint discard (n : nat) (st : state) : state :=
  match n with
  | O => st
  | S n => discard n (next st).2
  end.

Definition draw (a b : Z) (st : state) : Z * state :=
  let '(x, st) := next st in
  (a + (x mod 4294967296) * (b - a + 1) / 4294967296, st).

Fixpoint select (fuel : nat) (l : list Z) (st : state) : list Z * state :=
  match fuel with
  | O => (l, st)
  | S fuel =>
      let '(j, st') := draw 0 (Z.of_nat (length l) - 1) st in
      match l !! Z.to_nat j with
      | Some x =>
          let '(rest, st'') := select fuel (delete (Z.to_nat j) l) st' in
          (x :: rest, st'')
      | None => (l, st)
      end
  end.

#[global] Instance stdrandom : StdRandom state := {|
  mt19937 := seed;
  uniform_draw := draw;
  shuffle := λ l st, select (length l) l st
|}.
End MT.

(** A map iterated in ascending key order, as [std::map] is. *)
Module SortedMap.
Record t : Type := Wrap { entries : gmap Z Z }.

Definition key_le (p q : Z * Z) : Prop := p.1 ≤ q.1.

#[global] Instance key_le_dec p q : Decision (key_le p q).
Proof. unfold key_le. apply _. Defined.

#[global] Instance hashmap : Hashmap t := {|
  hm_empty := Wrap ∅;
  hm_find := λ m k, entries m !! k;
  hm_store := λ m k v, Wrap (<[k := v]> (entries m));
  hm_reserve := λ m _, m;
  hm_items := λ m, merge_sort key_le (map_to_list (entries m))
|}.
End SortedMap.

(** A second table on the carrier of [TrieMap], iterated the other way
    round; a value, not an instance. *)
Module ReversedTrieMap.
Definition hashmap : Hashmap (gmap Z Z) := {|
  hm_empty := (∅ : gmap Z Z);
  hm_find := λ (m : gmap Z Z) k, m !! k;
  hm_store := λ (m : gmap Z Z) k v, <[k := v]> m;
  hm_reserve := λ (m : gmap Z Z) _, m;
  hm_items := λ (m : gmap Z Z), reverse (map_to_list m)
|}.
End ReversedTrieMap.

(** ** Vocabulary of the statements *)

(** The number of occurrences of [k] in [l]. *)
Definition occurrences (k : Z) (l : list Z) : Z :=
  Z.of_nat (count_occ Z.eq_dec l k).

(** [count] copies of each [key], pair after pair. *)
Fixpoint groups (items : list (Z * Z)) : list Z :=
  match items with
  | [] => []
  | (key, count) :: items => replicate (Z.to_nat count) key ++ groups items
  end.

(** The sum of the counts of the pairs. *)
Definition total_count (items : list (Z * Z)) : Z :=
  foldr (λ p acc, p.2 + acc) 0 items.

(** The map [m] holds exactly the keys of [l], each with its number of
    occurrences in [l]. *)
Definition tallies {M : Type} `{Hashmap M} (m : M) (l : list Z) : Prop :=
  ∀ k, hm_find m k =
       if decide (occurrences k l = 0) then None else Some (occurrences k l).

(** * Properties *)

(** Linear arithmetic with the bounds of [int] and [size_t] unfolded. *)
Ltac int_lia := unfold INT_MAX, INT_MIN, SIZE_MAX in *; lia.

(** ** Facts about the generators *)

Lemma int_add_ok a b :
  INT_MIN ≤ a + b ≤ INT_MAX → int_add a b = Ok (a + b).
Proof.
  intros H. unfold int_add, int_result, in_int.
  destruct (Z.leb_spec INT_MIN (a + b)), (Z.leb_spec (a + b) INT_MAX);
    simpl; auto; lia.
Qed.

Lemma int_add_overflow a b :
  INT_MAX < a + b → int_add a b = UB SignedOverflow.
Proof.
  intros H. unfold int_add, int_result, in_int.
  destruct (Z.leb_spec (a + b) INT_MAX); [lia|].
  by rewrite andb_false_r.
Qed.

Lemma length_vector_of_size size : length (vector_of_size size) = N.to_nat size.
Proof. apply length_replicate. Qed.

(** Within the range of [int], [Benchmarks.iota] writes [value, value+1, ...]. *)
Lemma iota_ok range value :
  INT_MIN ≤ value → value + Z.of_nat (length range) ≤ INT_MAX →
  Benchmarks.iota range value = Ok (seqZ value (Z.of_nat (length range))).
Proof.
  revert value. induction range as [|x rest IH]; intros value Hlo Hhi.
  - reflexivity.
  - cbn [Benchmarks.iota length] in *.
    rewrite int_add_ok by lia. cbn.
    rewrite IH by lia. cbn.
    rewrite (seqZ_cons value) by lia.
    do 3 f_equal. lia.
Qed.

(** Past the range of [int], the increment overflows. *)
Lemma iota_overflow range value :
  INT_MIN ≤ value ≤ INT_MAX → INT_MAX < value + Z.of_nat (length range) →
  Benchmarks.iota range value = UB SignedOverflow.
Proof.
  revert value. induction range as [|x rest IH]; intros value Hv Hhi.
  - cbn in Hhi. lia.
  - cbn [Benchmarks.iota length] in *.
    destruct (decide (value = INT_MAX)) as [->|Hne].
    + by rewrite int_add_overflow by lia.
    + rewrite int_add_ok by lia. cbn.
      by rewrite IH by lia.
Qed.

Lemma iota_completes range value :
  INT_MIN ≤ value ≤ INT_MAX →
  completes (Benchmarks.iota range value) ↔ value + Z.of_nat (length range) ≤ INT_MAX.
Proof.
  intros Hv. split.
  - intros [out Hout].
    destruct (decide (value + Z.of_nat (length range) ≤ INT_MAX)); [done|].
    rewrite iota_overflow in Hout by lia. discriminate.
  - intros H. eexists. apply iota_ok; lia.
Qed.

Lemma INT_bounds : INT_MIN ≤ 0 ≤ INT_MAX.
Proof. int_lia. Qed.

Lemma GenerateAscendingData_ok size :
  Z.of_N size ≤ INT_MAX →
  Benchmarks.GenerateAscendingData size = Ok (seqZ 0 (Z.of_N size)).
Proof.
  intros H. unfold Benchmarks.GenerateAscendingData. pose proof INT_bounds.
  rewrite iota_ok; rewrite ?length_vector_of_size; [|lia|lia].
  do 2 f_equal. lia.
Qed.

Lemma GenerateAscendingData_overflow size :
  INT_MAX < Z.of_N size → Benchmarks.GenerateAscendingData size = UB SignedOverflow.
Proof.
  intros H. unfold Benchmarks.GenerateAscendingData. pose proof INT_bounds.
  apply iota_overflow; rewrite ?length_vector_of_size; lia.
Qed.

Lemma GenerateDescendingData_ok size :
  Z.of_N size ≤ INT_MAX →
  Benchmarks.GenerateDescendingData size = Ok (reverse (seqZ 0 (Z.of_N size))).
Proof.
  intros H. unfold Benchmarks.GenerateDescendingData, Benchmarks.iota_reverse.
  pose proof INT_bounds.
  rewrite iota_ok; rewrite ?length_reverse, ?length_vector_of_size; [|lia|lia].
  cbn. do 3 f_equal. lia.
Qed.

Lemma GenerateDescendingData_overflow size :
  INT_MAX < Z.of_N size → Benchmarks.GenerateDescendingData size = UB SignedOverflow.
Proof.
  intros H. unfold Benchmarks.GenerateDescendingData, Benchmarks.iota_reverse.
  pose proof INT_bounds.
  rewrite iota_overflow; [done|lia|].
  rewrite length_reverse, length_vector_of_size. lia.
Qed.

(** C9.  Every sequence the ascending generator returns for a size [N]
    has [N] elements and holds [i] at each position [i] in [0, N); a
    sequence is returned exactly when [N] is at most [INT_MAX] (past it the
    [int] value [std::iota] increments overflows); [N = 0] gives the empty
    sequence. *)
Theorem GenerateAscendingData_elements (size : N) :
  (∀ data, Benchmarks.GenerateAscendingData size = Ok data →
     length data = N.to_nat size ∧
     ∀ i : nat, (i < N.to_nat size)%nat → data !! i = Some (Z.of_nat i))
  ∧ (completes (Benchmarks.GenerateAscendingData size) ↔ Z.of_N size ≤ INT_MAX)
  ∧ Benchmarks.GenerateAscendingData 0 = Ok [].
Proof.
  split; [|split].
  - intros data Hrun.
    destruct (decide (Z.of_N size ≤ INT_MAX)) as [Hle|Hgt].
    + rewrite GenerateAscendingData_ok in Hrun by done.
      injection Hrun as <-. split.
      * rewrite length_seqZ. lia.
      * intros i Hi. rewrite lookup_seqZ_lt by lia. f_equal.
    + rewrite GenerateAscendingData_overflow in Hrun by lia. discriminate.
  - split.
    + intros [data Hrun].
      destruct (decide (Z.of_N size ≤ INT_MAX)); [done|].
      rewrite GenerateAscendingData_overflow in Hrun by lia. discriminate.
    + intros Hle. eexists. by apply GenerateAscendingData_ok.
  - reflexivity.
Qed.

(** C10.  Every sequence the descending generator returns for a size [N]
    has [N] elements and holds [N - 1 - i] at each position [i] in
    [0, N); a sequence is returned exactly when [N] is at most [INT_MAX]. *)
Theorem GenerateDescendingData_elements (size : N) :
  (∀ data, Benchmarks.GenerateDescendingData size = Ok data →
     length data = N.to_nat size ∧
     ∀ i : nat, (i < N.to_nat size)%nat →
       data !! i = Some (Z.of_N size - 1 - Z.of_nat i))
  ∧ (completes (Benchmarks.GenerateDescendingData size) ↔ Z.of_N size ≤ INT_MAX).
Proof.
  split.
  - intros data Hrun.
    destruct (decide (Z.of_N size ≤ INT_MAX)) as [Hle|Hgt].
    + rewrite GenerateDescendingData_ok in Hrun by done.
      injection Hrun as <-. split.
      * rewrite length_reverse, length_seqZ. lia.
      * intros i Hi.
        rewrite reverse_lookup by (rewrite length_seqZ; lia).
        rewrite length_seqZ, lookup_seqZ_lt by lia. f_equal. lia.
    + rewrite GenerateDescendingData_overflow in Hrun by lia. discriminate.
  - split.
    + intros [data Hrun].
      destruct (decide (Z.of_N size ≤ INT_MAX)); [done|].
      rewrite GenerateDescendingData_overflow in Hrun by lia. discriminate.
    + intros Hle. eexists. by apply GenerateDescendingData_ok.
Qed.

(** ** The counting phase *)

Lemma occurrences_nonneg k l : 0 ≤ occurrences k l.
Proof. unfold occurrences. lia. Qed.

Lemma occurrences_snoc k l x :
  occurrences k (l ++ [x]) = occurrences k l + (if decide (x = k) then 1 else 0).
Proof.
  unfold occurrences. rewrite count_occ_app. cbn [count_occ].
  destruct (Z.eq_dec x k), (decide (x = k)); try done; lia.
Qed.

Lemma occurrences_app k l1 l2 :
  occurrences k (l1 ++ l2) = occurrences k l1 + occurrences k l2.
Proof. unfold occurrences. rewrite count_occ_app. lia. Qed.

Lemma occurrences_le_length k l : occurrences k l ≤ Z.of_nat (length l).
Proof. unfold occurrences. pose proof (count_occ_bound Z.eq_dec k l). lia. Qed.

Lemma occurrences_pos k l : 0 < occurrences k l ↔ k ∈ l.
Proof.
  unfold occurrences. rewrite list_elem_of_In, (count_occ_In Z.eq_dec). lia.
Qed.

Lemma occurrences_replicate k n x :
  occurrences k (replicate n x) = if decide (x = k) then Z.of_nat n else 0.
Proof.
  unfold occurrences. induction n as [|n IH]; cbn [replicate count_occ].
  - by destruct (decide (x = k)).
  - destruct (Z.eq_dec x k), (decide (x = k)); try done; lia.
Qed.

(** Either every key fits an [int] counter, or some key does not. *)
Lemma occurrences_cases data :
  (∀ k, occurrences k data ≤ INT_MAX) ∨ (∃ k, INT_MAX < occurrences k data).
Proof.
  destruct (decide (Forall (λ k, occurrences k data ≤ INT_MAX) data))
    as [Hall|Hex].
  - left. intros k. destruct (decide (k ∈ data)) as [Hin|Hout].
    + by eapply Forall_forall in Hall.
    + destruct (decide (0 < occurrences k data)) as [Hp|Hnp];
        [by apply occurrences_pos in Hp|].
      assert (0 < INT_MAX) by int_lia. lia.
  - right. apply not_Forall_Exists, Exists_exists in Hex; [|apply _].
    destruct Hex as (k & _ & Hk). unfold compose in Hk. exists k. lia.
Qed.

Section Counting.
Context {M : Type} {HM : Hashmap M} {HL : HashmapLaws M}.

Lemma tallies_empty : tallies (hm_empty : M) [].
Proof. intros k. by rewrite hm_find_empty. Qed.

(** [sorted[val]++] adds one occurrence of [val]. *)
Lemma hm_increment_ok (m : M) seen val :
  tallies m seen → occurrences val seen < INT_MAX →
  ∃ m', hm_increment m val = Ok m' ∧ tallies m' (seen ++ [val]).
Proof.
  intros Hm Hlt. pose proof (occurrences_nonneg val seen) as Hge.
  unfold hm_increment, hm_subscript. rewrite (Hm val).
  assert (INT_MIN < 0) by int_lia.
  destruct (decide (occurrences val seen = 0)) as [H0|Hn0].
  - rewrite int_add_ok by lia. cbn. eexists; split; [done|].
    intros k. rewrite !hm_find_store, occurrences_snoc, (Hm k).
    destruct (decide (val = k)) as [->|Hne]; [rewrite H0|];
      repeat case_decide; try lia; try done; f_equal; lia.
  - rewrite int_add_ok by lia. cbn. eexists; split; [done|].
    intros k. rewrite hm_find_store, occurrences_snoc, (Hm k).
    destruct (decide (val = k)) as [->|Hne];
      repeat case_decide; try lia; try done; f_equal; lia.
Qed.

(** One occurrence more than [INT_MAX] cannot be counted. *)
Lemma hm_increment_overflow (m : M) seen val :
  tallies m seen → INT_MAX ≤ occurrences val seen →
  hm_increment m val = UB SignedOverflow.
Proof.
  intros Hm Hge. unfold hm_increment, hm_subscript. rewrite (Hm val).
  assert (0 < INT_MAX) by int_lia.
  case_decide; [lia|]. by rewrite int_add_overflow by lia.
Qed.

Lemma count_into_ok (m : M) seen data :
  tallies m seen → (∀ k, occurrences k (seen ++ data) ≤ INT_MAX) →
  ∃ m', Benchmarks.count_into m data = Ok m' ∧ tallies m' (seen ++ data).
Proof.
  revert m seen. induction data as [|val rest IH]; intros m seen Hm Hle.
  - exists m. by rewrite app_nil_r.
  - cbn [Benchmarks.count_into].
    destruct (hm_increment_ok m seen val Hm) as (m1 & -> & Hm1).
    { specialize (Hle val). rewrite occurrences_app in Hle.
      unfold occurrences at 2 in Hle. cbn [count_occ] in Hle.
      destruct (Z.eq_dec val val); [|done].
      pose proof (occurrences_nonneg val rest) as Hr.
      unfold occurrences in Hr. lia. }
    cbn. rewrite (assoc_L (++) seen [val] rest : seen ++ val :: rest = _) in *.
    by apply IH.
Qed.

Lemma count_into_overflow (m : M) seen data k :
  tallies m seen → (∀ k, occurrences k seen ≤ INT_MAX) →
  INT_MAX < occurrences k (seen ++ data) →
  Benchmarks.count_into m data = UB SignedOverflow.
Proof.
  revert m seen. induction data as [|val rest IH]; intros m seen Hm Hle Hgt.
  - rewrite app_nil_r in Hgt. specialize (Hle k). lia.
  - cbn [Benchmarks.count_into].
    destruct (decide (occurrences val seen < INT_MAX)) as [Hlt|Hge].
    + destruct (hm_increment_ok m seen val Hm Hlt) as (m1 & -> & Hm1).
      cbn. apply (IH m1 (seen ++ [val])); [done| |].
      * intros k'. rewrite occurrences_snoc. specialize (Hle k').
        case_decide; subst; lia.
      * by rewrite <-(assoc_L (++)).
    + by rewrite (hm_increment_overflow m seen val) by (done || lia).
Qed.

Lemma count_phase_ok data :
  (∀ k, occurrences k data ≤ INT_MAX) →
  ∃ sorted : M, Benchmarks.count_phase data = Ok sorted ∧ tallies sorted data.
Proof. intros Hle. by apply (count_into_ok hm_empty []); [apply tallies_empty|]. Qed.

Lemma count_phase_overflow data k :
  INT_MAX < occurrences k data →
  Benchmarks.count_phase (M:=M) data = UB SignedOverflow.
Proof.
  intros Hgt. apply (count_into_overflow hm_empty [] data k);
    [apply tallies_empty| |done].
  intros k'. unfold occurrences, INT_MAX. cbn. lia.
Qed.

Lemma count_phase_tallies data (sorted : M) :
  Benchmarks.count_phase data = Ok sorted → tallies sorted data.
Proof.
  intros Hrun. destruct (occurrences_cases data) as [Hle|[k Hk]].
  - destruct (count_phase_ok data Hle) as (m & Hm & Ht).
    rewrite Hm in Hrun. by injection Hrun as <-.
  - rewrite (count_phase_overflow data k) in Hrun by done. discriminate.
Qed.

Lemma count_phase_completes data :
  completes (Benchmarks.count_phase (M:=M) data) ↔
  ∀ k, occurrences k data ≤ INT_MAX.
Proof.
  split.
  - intros [m Hm] k.
    destruct (decide (occurrences k data ≤ INT_MAX)); [done|].
    rewrite (count_phase_overflow data k) in Hm by lia. discriminate.
  - intros Hle. destruct (count_phase_ok data Hle) as (m & Hm & _).
    by exists m.
Qed.
End Counting.

(** ** The reconstruction phase

    The vector is split as [pre ++ junk ++ post]: [pre] is what has been
    written, [junk] the part about to be overwritten. *)

Lemma write_next_ok key pre x post i w :
  i = Z.of_nat (length pre) → i < INT_MAX →
  Benchmarks.write_next key
    {| Benchmarks.data := pre ++ x :: post; Benchmarks.index := i;
       Benchmarks.written := w |}
  = Ok {| Benchmarks.data := pre ++ key :: post; Benchmarks.index := i + 1;
          Benchmarks.written := i :: w |}.
Proof.
  intros -> Hlt. unfold Benchmarks.write_next. cbn [Benchmarks.index Benchmarks.data
    Benchmarks.written].
  assert (INT_MIN < 0) by int_lia.
  rewrite int_add_ok by lia. cbn [mbind Outcome_bind].
  rewrite length_app. cbn [length].
  destruct (Z.leb_spec 0 (Z.of_nat (length pre))); [|lia].
  destruct (Z.ltb_spec (Z.of_nat (length pre))
              (Z.of_nat (length pre + S (length post)))); [|lia].
  cbn [andb]. rewrite Nat2Z.id.
  rewrite <-(Nat.add_0_r (length pre)) at 1. by rewrite insert_app_r.
Qed.

Lemma write_next_overflow key st :
  Benchmarks.index st = INT_MAX →
  Benchmarks.write_next key st = UB SignedOverflow.
Proof.
  intros Hi. unfold Benchmarks.write_next. rewrite Hi.
  by rewrite int_add_overflow by lia.
Qed.

Lemma write_copies_ok key count pre junk post i w :
  length junk = count → i = Z.of_nat (length pre) →
  i + Z.of_nat count ≤ INT_MAX →
  Benchmarks.write_copies key count
    {| Benchmarks.data := pre ++ junk ++ post; Benchmarks.index := i;
       Benchmarks.written := w |}
  = Ok {| Benchmarks.data := pre ++ replicate count key ++ post;
          Benchmarks.index := i + Z.of_nat count;
          Benchmarks.written := reverse (seqZ i (Z.of_nat count)) ++ w |}.
Proof.
  revert pre junk i w.
  induction count as [|count IH]; intros pre junk i w Hlen Hi Hmax.
  - destruct junk; [|done]. cbn. do 2 f_equal. lia.
  - destruct junk as [|x junk]; [done|]. injection Hlen as Hlen.
    cbn [Benchmarks.write_copies app].
    rewrite write_next_ok by lia. cbn [mbind Outcome_bind].
    rewrite (cons_middle key pre), (assoc_L (++) pre [key]).
    rewrite (IH (pre ++ [key]) junk) by (rewrite ?length_app; cbn; lia).
    rewrite <-(assoc_L (++) pre [key]). cbn [app].
    f_equal. f_equal; [lia|].
    rewrite (seqZ_cons i) by lia. rewrite reverse_cons, <-(assoc_L (++)).
    cbn [app]. do 3 f_equal; lia.
Qed.

Lemma write_copies_overflow key count pre junk post i w :
  length junk = count → i = Z.of_nat (length pre) → i ≤ INT_MAX →
  INT_MAX < i + Z.of_nat count →
  Benchmarks.write_copies key count
    {| Benchmarks.data := pre ++ junk ++ post; Benchmarks.index := i;
       Benchmarks.written := w |}
  = UB SignedOverflow.
Proof.
  revert pre junk i w.
  induction count as [|count IH]; intros pre junk i w Hlen Hi Hle Hgt; [lia|].
  destruct junk as [|x junk]; [done|]. injection Hlen as Hlen.
  cbn [Benchmarks.write_copies app].
  destruct (decide (i = INT_MAX)) as [Hmax|Hne].
  - by rewrite write_next_overflow.
  - rewrite write_next_ok by lia. cbn [mbind Outcome_bind].
    rewrite (cons_middle key pre), (assoc_L (++) pre [key]).
    apply IH; rewrite ?length_app; cbn; lia.
Qed.

Lemma split_junk (junk : list Z) n m :
  length junk = (n + m)%nat →
  ∃ junk1 junk2, junk = junk1 ++ junk2 ∧ length junk1 = n ∧ length junk2 = m.
Proof.
  intros Hlen. exists (take n junk), (drop n junk).
  rewrite take_drop, length_take, length_drop. split; [done|lia].
Qed.

Lemma rebuild_ok items pre junk post i w :
  length junk = length (groups items) → i = Z.of_nat (length pre) →
  i + Z.of_nat (length (groups items)) ≤ INT_MAX →
  Benchmarks.rebuild items
    {| Benchmarks.data := pre ++ junk ++ post; Benchmarks.index := i;
       Benchmarks.written := w |}
  = Ok {| Benchmarks.data := pre ++ groups items ++ post;
          Benchmarks.index := i + Z.of_nat (length (groups items));
          Benchmarks.written :=
            reverse (seqZ i (Z.of_nat (length (groups items)))) ++ w |}.
Proof.
  revert pre junk i w.
  induction items as [|[key count] items IH]; intros pre junk i w Hlen Hi Hmax.
  - destruct junk; [|done]. cbn. do 2 f_equal. lia.
  - cbn [Benchmarks.rebuild groups] in *.
    rewrite length_app, length_replicate in Hlen, Hmax |- *.
    destruct (split_junk junk _ _ Hlen) as (junk1 & junk2 & -> & Hl1 & Hl2).
    rewrite <-(assoc_L (++) junk1).
    rewrite write_copies_ok by (done || lia). cbn [mbind Outcome_bind].
    rewrite (assoc_L (++) pre (replicate _ _)).
    rewrite IH by (rewrite ?length_app, ?length_replicate; done || lia).
    rewrite <-!(assoc_L (++)). f_equal. f_equal; [lia|].
    rewrite Nat2Z.inj_add, seqZ_app, reverse_app by lia.
    by rewrite <-(assoc_L (++)).
Qed.

Lemma rebuild_overflow items pre junk post i w :
  length junk = length (groups items) → i = Z.of_nat (length pre) →
  i ≤ INT_MAX → INT_MAX < i + Z.of_nat (length (groups items)) →
  Benchmarks.rebuild items
    {| Benchmarks.data := pre ++ junk ++ post; Benchmarks.index := i;
       Benchmarks.written := w |}
  = UB SignedOverflow.
Proof.
  revert pre junk i w.
  induction items as [|[key count] items IH];
    intros pre junk i w Hlen Hi Hle Hgt; [cbn in Hgt; lia|].
  cbn [Benchmarks.rebuild groups] in *.
  rewrite length_app, length_replicate in Hlen, Hgt.
  destruct (split_junk junk _ _ Hlen) as (junk1 & junk2 & -> & Hl1 & Hl2).
  rewrite <-(assoc_L (++) junk1).
  destruct (decide (i + Z.of_nat (Z.to_nat count) ≤ INT_MAX)) as [Hfit|Hno].
  - rewrite write_copies_ok by (done || lia). cbn [mbind Outcome_bind].
    rewrite (assoc_L (++) pre (replicate _ _)).
    apply IH; rewrite ?length_app, ?length_replicate; done || lia.
  - by rewrite write_copies_overflow by (done || lia).
Qed.

(** ** What the groups hold *)

Lemma length_groups items :
  Forall (λ p, 0 ≤ p.2) items →
  Z.of_nat (length (groups items)) = total_count items.
Proof.
  induction 1 as [|[key count] items Hc _ IH]; [done|].
  cbn [groups total_count foldr snd] in *.
  rewrite length_app, length_replicate.
  unfold total_count in IH. lia.
Qed.

Lemma occurrences_groups_absent k items :
  k ∉ items.*1 → occurrences k (groups items) = 0.
Proof.
  induction items as [|[key count] items IH]; intros Hout; [done|].
  cbn [groups]. rewrite occurrences_app, occurrences_replicate.
  rewrite fmap_cons, not_elem_of_cons in Hout. destruct Hout as [Hne Hout].
  rewrite IH by done. case_decide; [by subst|lia].
Qed.

Lemma occurrences_groups_present k c items :
  NoDup items.*1 → (k, c) ∈ items → 0 ≤ c →
  occurrences k (groups items) = c.
Proof.
  induction items as [|[key count] items IH]; intros Hnd Hin Hc.
  - by apply elem_of_nil in Hin.
  - cbn [groups]. rewrite occurrences_app, occurrences_replicate.
    rewrite fmap_cons in Hnd. apply NoDup_cons in Hnd as [Hfresh Hnd].
    apply elem_of_cons in Hin as [[= <- <-]|Hin].
    + rewrite occurrences_groups_absent by done.
      rewrite decide_True by done. lia.
    + rewrite IH by done. rewrite decide_False; [lia|].
      intros ->. apply Hfresh. cbn.
      apply list_elem_of_fmap. by exists (k, c).
Qed.

Lemma elem_of_groups x items : x ∈ groups items → x ∈ items.*1.
Proof.
  induction items as [|[key count] items IH]; cbn [groups]; [done|].
  rewrite elem_of_app, fmap_cons, elem_of_cons.
  intros [Hx%elem_of_replicate_inv|Hx]; [by left|right; auto].
Qed.

(** With distinct keys, the copies of a key form one block of [groups]. *)
Lemma groups_contiguous k items :
  NoDup items.*1 →
  ∃ before after,
    (groups items
     = before ++ replicate (Z.to_nat (occurrences k (groups items))) k ++ after)
    ∧ (k ∉ before) ∧ (k ∉ after).
Proof.
  induction items as [|[key count] items IH]; intros Hnd.
  - exists [], []. repeat split; by apply not_elem_of_nil.
  - rewrite fmap_cons in Hnd. apply NoDup_cons in Hnd as [Hfresh Hnd].
    cbn [groups]. rewrite occurrences_app, occurrences_replicate.
    destruct (decide (key = k)) as [->|Hne].
    + rewrite occurrences_groups_absent by done.
      exists [], (groups items). cbn [app].
      rewrite Z.add_0_r, Nat2Z.id. split; [done|]. split.
      * apply not_elem_of_nil.
      * intros Hin%elem_of_groups. done.
    + destruct (IH Hnd) as (before & after & Heq & Hb & Ha).
      exists (replicate (Z.to_nat count) key ++ before), after.
      rewrite Z.add_0_l, <-(assoc_L (++)), <-Heq. split; [done|].
      split; [|done]. rewrite elem_of_app.
      intros [Hin%elem_of_replicate_inv|Hin]; done.
Qed.

(** ** histogramSort *)

Section Histogram.
Context {M : Type} {HM : Hashmap M} {HL : HashmapLaws M}.

Lemma items_tallied (m : M) input k c :
  tallies m input → (k, c) ∈ hm_items m →
  c = occurrences k input ∧ 0 < c ∧ k ∈ input.
Proof.
  intros Hm Hin. apply hm_items_find in Hin. rewrite (Hm k) in Hin.
  pose proof (occurrences_nonneg k input).
  case_decide; [done|]. injection Hin as <-.
  split; [done|]. split; [lia|]. apply occurrences_pos. lia.
Qed.

Lemma items_nonneg (m : M) input :
  tallies m input → Forall (λ p, 0 ≤ p.2) (hm_items m).
Proof.
  intros Hm. apply Forall_forall. intros [k c] Hin.
  destruct (items_tallied m input k c Hm Hin) as (_ & Hc & _). cbn. lia.
Qed.

Lemma groups_items_Permutation (m : M) input :
  tallies m input → groups (hm_items m) ≡ₚ input.
Proof.
  intros Hm. apply (Permutation_count_occ Z.eq_dec). intros k.
  apply Nat2Z.inj. change (occurrences k (groups (hm_items m)) = occurrences k input).
  pose proof (Hm k) as Hk.
  destruct (decide (occurrences k input = 0)) as [H0|Hn0].
  - rewrite H0. apply occurrences_groups_absent.
    intros ((k' & c) & Hfst & Hin)%list_elem_of_fmap. cbn in Hfst. subst k'.
    apply hm_items_find in Hin. congruence.
  - apply occurrences_groups_present.
    + apply hm_items_NoDup.
    + by apply hm_items_find.
    + apply occurrences_nonneg.
Qed.

Lemma histogramSort_run_tallied input (sorted : M) :
  Benchmarks.count_phase input = Ok sorted →
  Z.of_nat (length input) ≤ INT_MAX →
  Benchmarks.histogramSort_run (M:=M) input
  = Ok {| Benchmarks.data := groups (hm_items sorted);
          Benchmarks.index := Z.of_nat (length input);
          Benchmarks.written := reverse (seqZ 0 (Z.of_nat (length input))) |}.
Proof.
  intros Hcount Hmax. unfold Benchmarks.histogramSort_run.
  rewrite Hcount. cbn [mbind Outcome_bind].
  pose proof (count_phase_tallies _ _ Hcount) as Hm.
  pose proof (Permutation_length (groups_items_Permutation _ _ Hm)) as Hlen.
  pose proof (rebuild_ok (hm_items sorted) [] input [] 0 []) as Hre.
  rewrite !app_nil_r, Hlen in Hre. cbn [app length] in Hre.
  rewrite Hre by (done || lia). do 2 f_equal.
Qed.

Lemma histogramSort_run_overflow input :
  INT_MAX < Z.of_nat (length input) →
  Benchmarks.histogramSort_run (M:=M) input = UB SignedOverflow.
Proof.
  intros Hmax. unfold Benchmarks.histogramSort_run.
  destruct (Benchmarks.count_phase (M:=M) input) as [sorted|k] eqn:Hcount.
  - cbn [mbind Outcome_bind].
    pose proof (count_phase_tallies _ _ Hcount) as Hm.
    pose proof (Permutation_length (groups_items_Permutation _ _ Hm)) as Hlen.
    pose proof (rebuild_overflow (hm_items sorted) [] input [] 0 []) as Hre.
    rewrite !app_nil_r, Hlen in Hre. cbn [app length] in Hre.
    apply Hre; (done || unfold INT_MAX in *; lia).
  - cbn [mbind Outcome_bind]. f_equal.
    destruct (occurrences_cases input) as [Hle|[k' Hk']].
    + apply (count_phase_completes (M:=M)) in Hle as [m Hm]. congruence.
    + rewrite (count_phase_overflow input k') in Hcount by done. congruence.
Qed.

Lemma histogramSort_run_completes input :
  completes (Benchmarks.histogramSort_run (M:=M) input) ↔
  Z.of_nat (length input) ≤ INT_MAX.
Proof.
  split.
  - intros [st Hst].
    destruct (decide (Z.of_nat (length input) ≤ INT_MAX)); [done|].
    rewrite histogramSort_run_overflow in Hst by lia. discriminate.
  - intros Hmax.
    destruct (count_phase_ok (M:=M) input) as (sorted & Hcount & _).
    { intros k. pose proof (occurrences_le_length k input). lia. }
    eexists. by apply histogramSort_run_tallied.
Qed.
End Histogram.

(** ** The implementations meet their contracts *)

#[global] Instance TrieMap_laws : HashmapLaws TrieMap.t.
Proof.
  split; cbn.
  - intros k. apply lookup_empty.
  - intros m k v k'. apply lookup_insert.
  - done.
  - intros m. apply NoDup_fst_map_to_list.
  - intros m k v. apply elem_of_map_to_list.
Qed.

Lemma InsertionMap_find_store m k v k' :
  InsertionMap.find (InsertionMap.store m k v) k'
  = if decide (k = k') then Some v else InsertionMap.find m k'.
Proof.
  induction m as [|[k0 v0] m IH]; cbn.
  - by repeat case_decide.
  - destruct (decide (k0 = k)) as [->|Hne]; cbn.
    + by repeat case_decide.
    + rewrite IH. repeat case_decide; congruence.
Qed.

Lemma InsertionMap_items_find m k v :
  (k, v) ∈ InsertionMap.items m ↔ InsertionMap.find m k = Some v.
Proof.
  induction m as [|[k0 v0] m IH]; cbn.
  - split; [by intros ?%elem_of_nil|done].
  - rewrite elem_of_cons, list_elem_of_filter, IH. cbn.
    destruct (decide (k0 = k)) as [->|Hne]; split.
    + intros [[= ->]|[? _]]; done.
    + intros [= ->]. by left.
    + intros [[= ? ?]|[_ ?]]; done.
    + intros Hf. right. split; [congruence|done].
Qed.

Lemma InsertionMap_items_NoDup m : NoDup (InsertionMap.items m).*1.
Proof.
  induction m as [|[k0 v0] m IH]; cbn; [constructor|].
  apply NoDup_cons. split.
  - intros ((k & v) & Hk & Hin%list_elem_of_filter)%list_elem_of_fmap.
    cbn in *. subst. by destruct Hin.
  - eapply sublist_NoDup; [exact IH|].
    apply fmap_sublist, sublist_filter.
Qed.

#[global] Instance InsertionMap_laws : HashmapLaws InsertionMap.t.
Proof.
  split; cbn.
  - done.
  - apply InsertionMap_find_store.
  - done.
  - apply InsertionMap_items_NoDup.
  - apply InsertionMap_items_find.
Qed.

Lemma MT_draw_range a b st : a ≤ b → a ≤ (MT.draw a b st).1 ≤ b.
Proof.
  intros Hab. unfold MT.draw. destruct (MT.next st) as [x st']. cbn [fst].
  pose proof (Z.mod_pos_bound x 4294967296 eq_refl) as Hx.
  assert (0 ≤ (x mod 4294967296) * (b - a + 1) / 4294967296) as Hlo.
  { apply Z.div_pos; [nia|done]. }
  assert ((x mod 4294967296) * (b - a + 1) / 4294967296 < b - a + 1) as Hhi.
  { apply Z.div_lt_upper_bound; [done|nia]. }
  lia.
Qed.

Lemma MT_select_Permutation fuel l st : (MT.select fuel l st).1 ≡ₚ l.
Proof.
  revert l st. induction fuel as [|fuel IH]; intros l st; cbn [MT.select]; [done|].
  destruct (MT.draw _ _ st) as [j st'].
  destruct (l !! Z.to_nat j) as [x|] eqn:Hx; [|done].
  specialize (IH (delete (Z.to_nat j) l) st').
  destruct (MT.select _ _ st') as [rest st'']. cbn [fst] in *.
  rewrite IH. symmetry. by apply delete_Permutation.
Qed.

#[global] Instance MT_laws : StdRandomLaws MT.state.
Proof.
  split.
  - exact MT_draw_range.
  - intros l st. exact (MT_select_Permutation (length l) l st).
Qed.

(** ** The histogram-sort engine: statements *)

(** C4.  After the counting phase on [S], every key the frequency map
    holds occurs in [S], its stored count is its number of occurrences in
    [S] (and every key of [S] is held), and the counts add up to the length
    of [S].  The phase completes exactly when no key occurs more than
    [INT_MAX] times. *)
Theorem count_phase_tally {M : Type} {HM : Hashmap M} {HL : HashmapLaws M}
    (S : list Z) :
  (∀ sorted : M, Benchmarks.count_phase S = Ok sorted →
     (∀ k c, hm_find sorted k = Some c → k ∈ S ∧ c = occurrences k S)
     ∧ (∀ k, k ∈ S → hm_find sorted k = Some (occurrences k S))
     ∧ total_count (hm_items sorted) = Z.of_nat (length S))
  ∧ (completes (Benchmarks.count_phase (M:=M) S) ↔
     ∀ k, occurrences k S ≤ INT_MAX).
Proof.
  split; [|apply count_phase_completes].
  intros sorted Hcount.
  pose proof (count_phase_tallies _ _ Hcount) as Hm. split; [|split].
  - intros k c Hfind. apply hm_items_find in Hfind.
    destruct (items_tallied sorted S k c Hm Hfind) as (-> & _ & Hin). done.
  - intros k Hin. rewrite (Hm k). apply occurrences_pos in Hin.
    case_decide; [lia|done].
  - rewrite <-(length_groups _ (items_nonneg sorted S Hm)).
    by rewrite (Permutation_length (groups_items_Permutation sorted S Hm)).
Qed.

Lemma count_phase_tally_witness :
  (∀ sorted : InsertionMap.t, Benchmarks.count_phase [3; 1; 3] = Ok sorted →
     (∀ k c, hm_find sorted k = Some c → k ∈ [3; 1; 3] ∧ c = occurrences k [3; 1; 3])
     ∧ (∀ k, k ∈ [3; 1; 3] → hm_find sorted k = Some (occurrences k [3; 1; 3]))
     ∧ total_count (hm_items sorted) = 3)
  ∧ (completes (Benchmarks.count_phase (M:=InsertionMap.t) [3; 1; 3]) ↔
     ∀ k, occurrences k [3; 1; 3] ≤ INT_MAX).
Proof. exact (count_phase_tally (HL:=InsertionMap_laws) [3; 1; 3]). Defined.

(** C1, as amended.  For every input sequence [S] of at most [INT_MAX]
    elements and every map abstraction, [histogramSort] returns a sequence
    of the same length that is a permutation of [S]. *)
Theorem histogramSort_permutation {M : Type} {HM : Hashmap M}
    {HL : HashmapLaws M} (S : list Z) :
  Z.of_nat (length S) ≤ INT_MAX →
  ∃ out, Benchmarks.histogramSort (M:=M) S = Ok out
         ∧ length out = length S ∧ out ≡ₚ S.
Proof.
  intros Hmax.
  destruct (count_phase_ok (M:=M) S) as (sorted & Hcount & Hm).
  { intros k. pose proof (occurrences_le_length k S). lia. }
  exists (groups (hm_items sorted)).
  pose proof (groups_items_Permutation sorted S Hm) as Hperm.
  split; [|split; [by apply Permutation_length|done]].
  unfold Benchmarks.histogramSort.
  by rewrite (histogramSort_run_tallied S sorted).
Qed.

Lemma histogramSort_permutation_witness :
  ∃ out, Benchmarks.histogramSort (M:=TrieMap.t) [3; 1; 2; 3; 0; 1; 3] = Ok out
         ∧ length out = 7%nat ∧ out ≡ₚ [3; 1; 2; 3; 0; 1; 3].
Proof.
  apply (histogramSort_permutation (HL:=TrieMap_laws) [3; 1; 2; 3; 0; 1; 3]).
  vm_compute. discriminate.
Defined.

(** C1 as stated fails on a sequence of 2^31 + 1 elements: the count of
    key 0 passes [INT_MAX]. *)
Lemma histogramSort_permutation_counterexample :
  Benchmarks.histogramSort (M:=InsertionMap.t)
    ([0; 1] ++ replicate (Z.to_nat 2147483647) 0) = UB SignedOverflow
  ∧ ¬ ∃ out,
      Benchmarks.histogramSort (M:=InsertionMap.t)
        ([0; 1] ++ replicate (Z.to_nat 2147483647) 0) = Ok out
      ∧ length out = length ([0; 1] ++ replicate (Z.to_nat 2147483647) 0)
      ∧ out ≡ₚ [0; 1] ++ replicate (Z.to_nat 2147483647) 0.
Proof.
  assert (Benchmarks.histogramSort (M:=InsertionMap.t)
            ([0; 1] ++ replicate (Z.to_nat 2147483647) 0) = UB SignedOverflow)
    as Hub.
  { unfold Benchmarks.histogramSort.
    rewrite (histogramSort_run_overflow (HL:=InsertionMap_laws)); [done|].
    rewrite length_app, length_replicate. unfold INT_MAX.
    change (length [0; 1]) with 2%nat. lia. }
  split; [exact Hub|].
  intros (out & Hout & _). rewrite Hub in Hout. discriminate.
Qed.

(** C8, as amended.  For an input of at most [INT_MAX] elements the
    reconstruction completes, every write [data[index++]] lands at a
    position below the input length (positions 0, 1, ... in turn), and
    [index] ends equal to the input length.  For a longer input the run
    ends in a signed overflow, of a count or of [index]. *)
Theorem histogramSort_writes_in_bounds {M : Type} {HM : Hashmap M}
    {HL : HashmapLaws M} (S : list Z) :
  (Z.of_nat (length S) ≤ INT_MAX →
   ∃ st, Benchmarks.histogramSort_run (M:=M) S = Ok st
         ∧ Benchmarks.written st = reverse (seqZ 0 (Z.of_nat (length S)))
         ∧ Forall (λ i, 0 ≤ i < Z.of_nat (length S)) (Benchmarks.written st)
         ∧ Benchmarks.index st = Z.of_nat (length S))
  ∧ (INT_MAX < Z.of_nat (length S) →
     Benchmarks.histogramSort_run (M:=M) S = UB SignedOverflow).
Proof.
  split; [|apply histogramSort_run_overflow].
  intros Hmax.
  destruct (count_phase_ok (M:=M) S) as (sorted & Hcount & Hm).
  { intros k. pose proof (occurrences_le_length k S). lia. }
  eexists. split; [by apply histogramSort_run_tallied|].
  cbn [Benchmarks.written Benchmarks.index]. split; [done|]. split; [|done].
  apply Forall_reverse, Forall_seqZ. intros i Hi. lia.
Qed.

Lemma histogramSort_writes_in_bounds_witness :
  (Z.of_nat (length [3; 1; 3]) ≤ INT_MAX →
   ∃ st, Benchmarks.histogramSort_run (M:=InsertionMap.t) [3; 1; 3] = Ok st
         ∧ Benchmarks.written st = reverse (seqZ 0 (Z.of_nat (length [3; 1; 3])))
         ∧ Forall (λ i, 0 ≤ i < Z.of_nat (length [3; 1; 3])) (Benchmarks.written st)
         ∧ Benchmarks.index st = Z.of_nat (length [3; 1; 3]))
  ∧ (INT_MAX < Z.of_nat (length [3; 1; 3]) →
     Benchmarks.histogramSort_run (M:=InsertionMap.t) [3; 1; 3] = UB SignedOverflow).
Proof. exact (histogramSort_writes_in_bounds (HL:=InsertionMap_laws) [3; 1; 3]). Defined.

(** C8 as stated fails on a sequence of 2^31 elements: the counting
    phase completes, the write at position [INT_MAX] is reached, and
    [index++] overflows there; [index] never equals the input length. *)
Lemma histogramSort_writes_in_bounds_counterexample :
  completes (Benchmarks.count_phase (M:=InsertionMap.t)
               ([1] ++ replicate (Z.to_nat 2147483647) 0))
  ∧ Benchmarks.histogramSort_run (M:=InsertionMap.t)
      ([1] ++ replicate (Z.to_nat 2147483647) 0) = UB SignedOverflow
  ∧ ¬ ∃ st,
      Benchmarks.histogramSort_run (M:=InsertionMap.t)
        ([1] ++ replicate (Z.to_nat 2147483647) 0) = Ok st
      ∧ Benchmarks.index st
        = Z.of_nat (length ([1] ++ replicate (Z.to_nat 2147483647) 0)).
Proof.
  assert (Benchmarks.histogramSort_run (M:=InsertionMap.t)
            ([1] ++ replicate (Z.to_nat 2147483647) 0) = UB SignedOverflow)
    as Hub.
  { apply (histogramSort_run_overflow (HL:=InsertionMap_laws)).
    rewrite length_app, length_replicate. unfold INT_MAX.
    change (length [1]) with 1%nat. lia. }
  split; [|split; [exact Hub|]].
  - apply (count_phase_completes (HL:=InsertionMap_laws)). intros k.
    rewrite occurrences_app, occurrences_replicate.
    change (occurrences k [1]) with (Z.of_nat (if Z.eq_dec 1 k then 1 else 0)).
    unfold INT_MAX. destruct (Z.eq_dec 1 k); case_decide; lia.
  - intros (st & Hst & _). rewrite Hub in Hst. discriminate.
Qed.

Lemma occurrences_Permutation k (l1 l2 : list Z) :
  l1 ≡ₚ l2 → occurrences k l1 = occurrences k l2.
Proof.
  intros Hp. unfold occurrences. f_equal.
  by apply (Permutation_count_occ Z.eq_dec).
Qed.

Lemma histogramSort_output {M : Type} {HM : Hashmap M} {HL : HashmapLaws M}
    (S out : list Z) :
  Benchmarks.histogramSort (M:=M) S = Ok out →
  ∃ sorted : M, Benchmarks.count_phase S = Ok sorted
                ∧ tallies sorted S ∧ out = groups (hm_items sorted).
Proof.
  intros Hout. unfold Benchmarks.histogramSort in Hout.
  destruct (Benchmarks.histogramSort_run (M:=M) S) as [st|] eqn:Hrun; [|done].
  assert (Z.of_nat (length S) ≤ INT_MAX) as Hmax.
  { apply (histogramSort_run_completes (M:=M)). by exists st. }
  destruct (count_phase_ok (M:=M) S) as (sorted & Hcount & Hm).
  { intros k. pose proof (occurrences_le_length k S). lia. }
  exists sorted. split; [done|]. split; [done|].
  rewrite (histogramSort_run_tallied S sorted) in Hrun by done.
  injection Hrun as <-. cbn in Hout. by injection Hout as <-.
Qed.

Lemma not_Sorted_2_1 : ¬ Sorted Z.le [2; 1].
Proof.
  intros Hs. apply Sorted_inv in Hs as [_ Hhd].
  apply HdRel_inv in Hhd. lia.
Qed.

(** C6.  Whatever [histogramSort] returns is the map's pairs in iteration
    order, each expanded to [count] copies of its key, so for every key its
    copies (as many as it occurs in the input) form one contiguous block;
    an output is returned exactly when the input has at most [INT_MAX]
    elements; and the output need not be sorted by key: a map that
    iterates in insertion order turns [2; 1] into [2; 1]. *)
Theorem histogramSort_grouped :
  (∀ (M : Type) (HM : Hashmap M), HashmapLaws M → ∀ S out : list Z,
     Benchmarks.histogramSort (M:=M) S = Ok out →
     (∃ sorted : M, Benchmarks.count_phase S = Ok sorted
                    ∧ out = groups (hm_items sorted))
     ∧ ∀ k, ∃ before after,
         (out = before ++ replicate (Z.to_nat (occurrences k S)) k ++ after)
         ∧ (k ∉ before) ∧ (k ∉ after))
  ∧ (∀ (M : Type) (HM : Hashmap M), HashmapLaws M → ∀ S : list Z,
       completes (Benchmarks.histogramSort (M:=M) S) ↔
       Z.of_nat (length S) ≤ INT_MAX)
  ∧ (∃ out, Benchmarks.histogramSort (M:=InsertionMap.t) [2; 1] = Ok out
            ∧ ¬ Sorted Z.le out).
Proof.
  split; [|split].
  - intros M HM HL S out Hout.
    destruct (histogramSort_output S out Hout) as (sorted & Hcount & Hm & ->).
    split; [by exists sorted|]. intros k.
    destruct (groups_contiguous k (hm_items sorted) (hm_items_NoDup sorted))
      as (before & after & Heq & Hb & Ha).
    exists before, after.
    by rewrite <-(occurrences_Permutation k _ _
                   (groups_items_Permutation sorted S Hm)).
  - intros M HM HL S. rewrite <-(histogramSort_run_completes (M:=M)).
    unfold Benchmarks.histogramSort, completes.
    destruct (Benchmarks.histogramSort_run (M:=M) S) as [st|]; cbn.
    + split; eauto.
    + split; intros [? ?]; done.
  - exists [2; 1]. split; [reflexivity|apply not_Sorted_2_1].
Qed.

(** ** The random generators *)

Lemma static_cast_int_small size :
  Z.of_N size ≤ INT_MAX → static_cast_int size = Z.of_N size.
Proof.
  intros Hle. unfold static_cast_int, INT_MAX in *.
  rewrite Z.mod_small by lia. lia.
Qed.


Lemma uniform_int_distribution_ok a b :
  a ≤ b → uniform_int_distribution a b = Ok (a, b).
Proof.
  intros Hab. unfold uniform_int_distribution.
  destruct (Z.leb_spec a b); [done|lia].
Qed.

Lemma uniform_int_distribution_inv a b dis :
  uniform_int_distribution a b = Ok dis → dis = (a, b) ∧ a ≤ b.
Proof.
  unfold uniform_int_distribution.
  destruct (Z.leb_spec a b); [|done]. by intros [= <-].
Qed.

Lemma int_mul_inv a b r :
  int_mul a b = Ok r → r = a * b ∧ INT_MIN ≤ a * b ≤ INT_MAX.
Proof.
  unfold int_mul, int_result, in_int.
  destruct (Z.leb_spec INT_MIN (a * b)), (Z.leb_spec (a * b) INT_MAX);
    cbn; intros [= <-]. done.
Qed.

Lemma int_mul_ok a b :
  INT_MIN ≤ a * b ≤ INT_MAX → int_mul a b = Ok (a * b).
Proof.
  intros H. unfold int_mul, int_result, in_int.
  destruct (Z.leb_spec INT_MIN (a * b)), (Z.leb_spec (a * b) INT_MAX);
    simpl; auto; lia.
Qed.

Section FillFacts.
Context {G : Type} {HR : StdRandom G}.

Lemma length_fill dis data (gen : G) :
  length (fill dis data gen).1 = length data.
Proof.
  revert gen. induction data as [|x rest IH]; intros gen; [done|].
  cbn [fill]. destruct (uniform_draw _ _ gen) as [val gen'].
  specialize (IH gen'). destruct (fill dis rest gen') as [rest' gen''].
  cbn in *. by rewrite IH.
Qed.

(** The old contents of the vector do not matter, only its size. *)
Lemma fill_overwrites dis data1 data2 (gen : G) :
  length data1 = length data2 → fill dis data1 gen = fill dis data2 gen.
Proof.
  revert data2 gen. induction data1 as [|x rest IH]; intros [|y rest2] gen Hlen;
    try done.
  cbn [fill]. destruct (uniform_draw _ _ gen) as [val gen'].
  by rewrite (IH rest2 gen') by (cbn in Hlen; lia).
Qed.

Context {HRL : StdRandomLaws G}.

End FillFacts.


Section Generators.
Context {G : Type} {HR : StdRandom G}.

Lemma Benchmarks_GenerateRandomData_ok size :
  Z.of_N size ≤ INT_MAX →
  Benchmarks.GenerateRandomData (G:=G) size
  = Ok (fill (0, Z.of_N size) (vector_of_size size) (mt19937 42)).1.
Proof.
  intros Hle. unfold Benchmarks.GenerateRandomData.
  rewrite static_cast_int_small by done.
  by rewrite uniform_int_distribution_ok by lia.
Qed.

Lemma Benchmarks_GenerateRandomData_bad size :
  static_cast_int size < 0 →
  Benchmarks.GenerateRandomData (G:=G) size = UB BadDistributionBounds.
Proof.
  intros Hneg. unfold Benchmarks.GenerateRandomData, uniform_int_distribution.
  by destruct (Z.leb_spec 0 (static_cast_int size)); [lia|].
Qed.


Lemma RandomAccess_GenerateRandomData_ok size :
  2 * Z.of_N size ≤ INT_MAX →
  RandomAccess.GenerateRandomData (G:=G) size
  = Ok (fill (0, 2 * Z.of_N size) (vector_of_size size) (mt19937 42)).1.
Proof.
  intros Hle. unfold RandomAccess.GenerateRandomData.
  rewrite static_cast_int_small by lia.
  assert (INT_MIN < 0) by int_lia.
  rewrite int_mul_ok by lia. cbn [mbind Outcome_bind].
  rewrite uniform_int_distribution_ok by lia. cbn [mbind Outcome_bind].
  by rewrite (Z.mul_comm (Z.of_N size) 2).
Qed.

Lemma RandomAccess_GenerateRandomData_inv size data :
  RandomAccess.GenerateRandomData (G:=G) size = Ok data →
  0 ≤ static_cast_int size ∧
  data = (fill (0, static_cast_int size * 2) (vector_of_size size)
            (mt19937 42)).1.
Proof.
  unfold RandomAccess.GenerateRandomData. intros Hrun.
  destruct (int_mul (static_cast_int size) 2) as [bound|] eqn:Hmul; [|done].
  apply int_mul_inv in Hmul as [-> _]. cbn [mbind Outcome_bind] in Hrun.
  destruct (uniform_int_distribution 0 (static_cast_int size * 2)) as [dis|]
    eqn:Hdis; [|done].
  apply uniform_int_distribution_inv in Hdis as [-> Hpos].
  cbn in Hrun. injection Hrun as <-. split; [lia|done].
Qed.

Lemma RandomAccess_GenerateRandomData_length size data :
  RandomAccess.GenerateRandomData (G:=G) size = Ok data →
  length data = N.to_nat size.
Proof.
  intros (_ & ->)%RandomAccess_GenerateRandomData_inv.
  by rewrite length_fill, length_vector_of_size.
Qed.
End Generators.




(** ** The random-access engine *)

Section Setup.
Context {M : Type} {HM : Hashmap M} {HL : HashmapLaws M}.

Lemma hm_assign_find (m : M) k v k' :
  hm_find (hm_assign m k v) k' = if decide (k = k') then Some v else hm_find m k'.
Proof.
  unfold hm_assign, hm_subscript.
  destruct (hm_find m k) eqn:Hk; rewrite ?hm_find_store; [done|].
  by case_decide.
Qed.

(** After the setup loop the map holds every generated key, mapped to
    itself. *)
Lemma populate_find (m : M) data k :
  hm_find (RandomAccess.populate m data) k
  = if decide (k ∈ data) then Some k else hm_find m k.
Proof.
  revert m. induction data as [|val rest IH]; intros m.
  - cbn. case_decide as Hin; [by apply elem_of_nil in Hin|done].
  - unfold RandomAccess.populate in *. cbn [foldl]. rewrite IH.
    rewrite hm_assign_find.
    destruct (decide (k ∈ rest)) as [Hin|Hout].
    + rewrite decide_True; [done|]. by right.
    + destruct (decide (val = k)) as [->|Hne].
      * rewrite decide_True; [done|]. by left.
      * rewrite decide_False; [done|].
        intros [?|?]%elem_of_cons; congruence.
Qed.
End Setup.

Section Loop.
Context {M : Type} {HM : Hashmap M}.
Variables (map : M) (lookups : list Z).
Hypothesis nonempty : (0 < length lookups)%nat.
Hypothesis fits_size_t : Z.of_nat (length lookups) ≤ SIZE_MAX.

Let size : Z := Z.of_nat (length lookups).

Lemma lookup_pass_ok lookup_idx :
  0 ≤ lookup_idx < size →
  ∃ key, lookups !! Z.to_nat lookup_idx = Some key ∧
    RandomAccess.lookup_pass map lookups lookup_idx
    = Ok ({| RandomAccess.cursor := lookup_idx; RandomAccess.key := key;
             RandomAccess.found := hm_find map key |},
          (lookup_idx + 1) mod size).
Proof.
  intros Hidx. subst size.
  destruct (lookup_lt_is_Some_2 lookups (Z.to_nat lookup_idx)) as [key Hkey];
    [lia|].
  exists key. split; [done|].
  unfold RandomAccess.lookup_pass, vector_at. rewrite Hkey.
  destruct (Z.leb_spec 0 lookup_idx); [|lia].
  destruct (Z.ltb_spec lookup_idx (Z.of_nat (length lookups))); [|lia].
  cbn [andb mbind Outcome_bind]. do 2 f_equal.
  unfold wrap_size_t. rewrite Z.mod_small by lia.
  destruct (Z.leb_spec (Z.of_nat (length lookups)) (lookup_idx + 1)).
  - assert (lookup_idx + 1 = Z.of_nat (length lookups)) as -> by lia.
    by rewrite Z.mod_same by lia.
  - by rewrite Z.mod_small by lia.
Qed.

Lemma measured_loop_ok iterations lookup_idx :
  0 ≤ lookup_idx < size →
  ∃ passes,
    RandomAccess.measured_loop map lookups iterations lookup_idx
    = Ok (passes, (lookup_idx + Z.of_nat iterations) mod size)
    ∧ length passes = iterations
    ∧ ∀ (j : nat) pass, passes !! j = Some pass →
        RandomAccess.cursor pass = (lookup_idx + Z.of_nat j) mod size
        ∧ lookups !! Z.to_nat (RandomAccess.cursor pass)
          = Some (RandomAccess.key pass)
        ∧ RandomAccess.found pass = hm_find map (RandomAccess.key pass).
Proof.
  revert lookup_idx.
  induction iterations as [|iterations IH]; intros lookup_idx Hidx.
  - exists []. cbn [RandomAccess.measured_loop]. split; [|split; [done|]].
    + rewrite Z.add_0_r, Z.mod_small by done. done.
    + intros j pass Hj. done.
  - destruct (lookup_pass_ok lookup_idx Hidx) as (key & Hkey & Hpass).
    destruct (IH ((lookup_idx + 1) mod size)) as (passes & Hloop & Hlen & Hall).
    { apply Z.mod_pos_bound. subst size. lia. }
    eexists. cbn [RandomAccess.measured_loop].
    rewrite Hpass. cbn [mbind Outcome_bind]. rewrite Hloop.
    cbn [mbind Outcome_bind]. split; [|split].
    + do 2 f_equal. rewrite Z.add_mod_idemp_l by (subst size; lia).
      f_equal. lia.
    + cbn. by rewrite Hlen.
    + intros [|j] pass Hj.
      * injection Hj as <-. cbn [RandomAccess.cursor RandomAccess.key
          RandomAccess.found]. rewrite Z.add_0_r, Z.mod_small by done. done.
      * destruct (Hall j pass Hj) as (Hc & Hk & Hf).
        split; [|done]. rewrite Hc.
        rewrite Z.add_mod_idemp_l by (subst size; lia). f_equal. lia.
Qed.
End Loop.

(** C7.  In the measured loop over [N > 0] lookup keys, started at cursor
    0, the pass number [j] reads at cursor [j mod N], which lies in
    [0, N); from one pass to the next the cursor advances by one, and wraps
    to 0 after the last element; the loop runs for any number [k] of
    iterations, whatever [N] is, and leaves the cursor at [k mod N]. *)
Theorem measured_loop_cursor {M : Type} {HM : Hashmap M} (map : M)
    (lookups : list Z) (k : nat) :
  (0 < length lookups)%nat →
  Z.of_nat (length lookups) ≤ SIZE_MAX →
  ∃ passes,
    RandomAccess.measured_loop map lookups k 0
    = Ok (passes, Z.of_nat k mod Z.of_nat (length lookups))
    ∧ length passes = k
    ∧ (∀ (j : nat) pass, passes !! j = Some pass →
         RandomAccess.cursor pass = Z.of_nat j mod Z.of_nat (length lookups)
         ∧ 0 ≤ RandomAccess.cursor pass < Z.of_nat (length lookups))
    ∧ (∀ (j : nat) pass pass', passes !! j = Some pass →
         passes !! S j = Some pass' →
         RandomAccess.cursor pass'
         = if decide (RandomAccess.cursor pass + 1 = Z.of_nat (length lookups))
           then 0 else RandomAccess.cursor pass + 1)
    ∧ 0 ≤ Z.of_nat k mod Z.of_nat (length lookups) < Z.of_nat (length lookups).
Proof.
  intros Hpos Hfit.
  destruct (measured_loop_ok map lookups Hpos Hfit k 0)
    as (passes & Hloop & Hlen & Hall); [lia|].
  exists passes. rewrite Z.add_0_l in Hloop.
  assert (0 < Z.of_nat (length lookups)) as HN by lia.
  split; [done|]. split; [done|]. split; [|split].
  - intros j pass Hj. destruct (Hall j pass Hj) as (Hc & _).
    rewrite Z.add_0_l in Hc. rewrite Hc. split; [done|].
    by apply Z.mod_pos_bound.
  - intros j pass pass' Hj Hj'.
    destruct (Hall j pass Hj) as (Hc & _).
    destruct (Hall (S j) pass' Hj') as (Hc' & _).
    rewrite Z.add_0_l in Hc, Hc'. rewrite Hc', Hc.
    pose proof (Z.mod_pos_bound (Z.of_nat j) _ HN) as Hb.
    replace (Z.of_nat (S j)) with (Z.of_nat j + 1) by lia.
    rewrite <-Z.add_mod_idemp_l by lia.
    case_decide as Hwrap.
    + rewrite Hwrap. apply Z.mod_same. lia.
    + apply Z.mod_small. lia.
  - by apply Z.mod_pos_bound.
Qed.

Lemma measured_loop_cursor_witness :
  ∃ passes,
    RandomAccess.measured_loop (M:=InsertionMap.t) [(6, 6)] [5; 6; 7] 7 0
    = Ok (passes, Z.of_nat 7 mod Z.of_nat (length [5; 6; 7]))
    ∧ length passes = 7%nat
    ∧ (∀ (j : nat) pass, passes !! j = Some pass →
         RandomAccess.cursor pass = Z.of_nat j mod Z.of_nat (length [5; 6; 7])
         ∧ 0 ≤ RandomAccess.cursor pass < Z.of_nat (length [5; 6; 7]))
    ∧ (∀ (j : nat) pass pass', passes !! j = Some pass →
         passes !! S j = Some pass' →
         RandomAccess.cursor pass'
         = if decide (RandomAccess.cursor pass + 1 = Z.of_nat (length [5; 6; 7]))
           then 0 else RandomAccess.cursor pass + 1)
    ∧ 0 ≤ Z.of_nat 7 mod Z.of_nat (length [5; 6; 7]) < Z.of_nat (length [5; 6; 7]).
Proof.
  apply (measured_loop_cursor (M:=InsertionMap.t) [(6, 6)] [5; 6; 7] 7).
  - cbn. lia.
  - vm_compute. discriminate.
Defined.

Section TrialFacts.
Context {G : Type} {HR : StdRandom G} {HRL : StdRandomLaws G}.
Context {M : Type} {HM : Hashmap M} {HL : HashmapLaws M}.

Lemma trial_ok size data iterations :
  (0 < length data)%nat → Z.of_nat (length data) ≤ SIZE_MAX →
  ∃ passes final,
    RandomAccess.trial (G:=G) (M:=M) size data iterations = Ok (passes, final)
    ∧ length passes = iterations
    ∧ Forall (λ pass, RandomAccess.key pass ∈ data
                      ∧ RandomAccess.found pass = Some (RandomAccess.key pass))
             passes.
Proof.
  intros Hpos Hfit. unfold RandomAccess.trial.
  pose proof (shuffle_Permutation data (mt19937 123)) as Hperm.
  set (lookups := (shuffle data (mt19937 123)).1) in *.
  pose proof (Permutation_length Hperm) as Hlen.
  destruct (measured_loop_ok
              (RandomAccess.populate (hm_reserve hm_empty size) data)
              lookups ltac:(lia) ltac:(lia) iterations 0)
    as (passes & Hloop & Hn & Hall); [lia|].
  exists passes. eexists. split; [exact Hloop|]. split; [done|].
  apply Forall_lookup_2. intros j pass Hj.
  destruct (Hall j pass Hj) as (_ & Hkey & Hfound).
  apply list_elem_of_lookup_2 in Hkey. rewrite Hperm in Hkey.
  split; [done|]. rewrite Hfound, populate_find. by rewrite decide_True.
Qed.
End TrialFacts.

(** C2.  In the random-access engine, for every size [N > 0], every
    lookup of the measured loop is a hit: the key it takes from the
    shuffled lookup sequence is one of the keys inserted during setup, and
    [map.find(key)] finds it.  This holds for every run that reaches the
    measured loop, whatever the number of iterations; the setup completes
    whenever [2 * N] is at most [INT_MAX]. *)
Theorem BM_RandomAccess_all_hits {G : Type} {HR : StdRandom G}
    {HRL : StdRandomLaws G} {M : Type} {HM : Hashmap M} {HL : HashmapLaws M}
    (size : N) (iterations : nat) :
  (0 < size)%N → Z.of_N size ≤ SIZE_MAX →
  (∀ data, RandomAccess.GenerateRandomData (G:=G) size = Ok data →
     ∃ passes final,
       RandomAccess.BM_RandomAccess (G:=G) (M:=M) size iterations
       = Ok (passes, final)
       ∧ length passes = iterations
       ∧ Forall (λ pass, RandomAccess.key pass ∈ data
                         ∧ RandomAccess.found pass = Some (RandomAccess.key pass))
                passes)
  ∧ (2 * Z.of_N size ≤ INT_MAX →
     completes (RandomAccess.GenerateRandomData (G:=G) size)).
Proof.
  intros Hpos Hfit. split.
  - intros data Hdata.
    pose proof (RandomAccess_GenerateRandomData_length size data Hdata) as Hlen.
    unfold RandomAccess.BM_RandomAccess. rewrite Hdata.
    cbn [mbind Outcome_bind]. apply trial_ok; lia.
  - intros Hle. eexists. by apply RandomAccess_GenerateRandomData_ok.
Qed.

Lemma BM_RandomAccess_all_hits_witness :
  (∀ data, RandomAccess.GenerateRandomData (G:=MT.state) 4 = Ok data →
     ∃ passes final,
       RandomAccess.BM_RandomAccess (G:=MT.state) (M:=TrieMap.t) 4 10
       = Ok (passes, final)
       ∧ length passes = 10%nat
       ∧ Forall (λ pass, RandomAccess.key pass ∈ data
                         ∧ RandomAccess.found pass = Some (RandomAccess.key pass))
                passes)
  ∧ (2 * Z.of_N 4 ≤ INT_MAX →
     completes (RandomAccess.GenerateRandomData (G:=MT.state) 4)).
Proof.
  apply (BM_RandomAccess_all_hits (HRL:=MT_laws) (HL:=TrieMap_laws) 4 10).
  - reflexivity.
  - vm_compute. discriminate.
Defined.

(** ** Worked examples *)

(** The reference engine is the standard's: "the 10000th consecutive
    invocation of a default-constructed object of type [mt19937] produces
    the value 4123659995" (the default seed is 5489). *)
Example MT_known_answer :
  (MT.next (MT.discard (Z.to_nat 9999) (MT.seed 5489))).1 = 4123659995.
Proof. by vm_compute. Qed.

(** Size 4, ascending: [0; 1; 2; 3], and [histogramSort] returns one each
    of 0, 1, 2, 3 in the order of the map. *)
Example ascending_4 : Benchmarks.GenerateAscendingData 4 = Ok [0; 1; 2; 3].
Proof. reflexivity. Qed.

Example descending_4 : Benchmarks.GenerateDescendingData 4 = Ok [3; 2; 1; 0].
Proof. reflexivity. Qed.

Example histogramSort_ascending_4 :
  Benchmarks.histogramSort (M:=TrieMap.t) [0; 1; 2; 3] = Ok [3; 2; 1; 0]
  ∧ Benchmarks.histogramSort (M:=InsertionMap.t) [0; 1; 2; 3] = Ok [0; 1; 2; 3].
Proof. split; by vm_compute. Qed.

(** Two map abstractions, one input, two orders of the groups. *)
Example histogramSort_two_orders :
  Benchmarks.histogramSort (M:=TrieMap.t) [3; 1; 2; 3; 0; 1; 3]
  = Ok [3; 3; 3; 2; 1; 1; 0]
  ∧ Benchmarks.histogramSort (M:=InsertionMap.t) [3; 1; 2; 3; 0; 1; 3]
    = Ok [3; 3; 3; 1; 1; 2; 0].
Proof. split; by vm_compute. Qed.

(** Size 5 with the reference engine: the same seed, two bounds. *)
Example random_5 :
  Benchmarks.GenerateRandomData (G:=MT.state) 5 = Ok [2; 4; 5; 1; 4]
  ∧ RandomAccess.GenerateRandomData (G:=MT.state) 5 = Ok [4; 8; 10; 2; 8].
Proof. split; by vm_compute. Qed.

(** With no keys the first pass of the measured loop reads outside the
    empty lookup vector. *)
Example BM_RandomAccess_size_0 :
  RandomAccess.BM_RandomAccess (G:=MT.state) (M:=TrieMap.t) 0 1 = UB OutOfBounds.
Proof. by vm_compute. Qed.

(** * Further properties *)

(** ** The ordered map meets the contract, and iterates in key order *)

#[global] Instance SortedMap_key_le_trans : Transitive SortedMap.key_le.
Proof. intros p q r. unfold SortedMap.key_le. lia. Qed.

#[global] Instance SortedMap_key_le_total : Total SortedMap.key_le.
Proof. intros p q. unfold SortedMap.key_le. lia. Qed.

#[global] Instance SortedMap_laws : HashmapLaws SortedMap.t.
Proof.
  split.
  - intros k. apply lookup_empty.
  - intros m k v k'. apply lookup_insert.
  - done.
  - intros m. cbn [hm_items SortedMap.hashmap].
    rewrite merge_sort_Permutation. apply NoDup_fst_map_to_list.
  - intros m k v. cbn [hm_items hm_find SortedMap.hashmap].
    rewrite merge_sort_Permutation. apply elem_of_map_to_list.
Qed.

Lemma SortedMap_items_sorted (m : SortedMap.t) :
  StronglySorted Z.le (hm_items m).*1.
Proof.
  apply (StronglySorted_fmap fst SortedMap.key_le Z.le); [done|].
  apply (StronglySorted_merge_sort SortedMap.key_le).
Qed.

(** ** More about histogramSort *)

Lemma histogramSort_ok {M : Type} {HM : Hashmap M} {HL : HashmapLaws M}
    (S : list Z) :
  Z.of_nat (length S) ≤ INT_MAX →
  ∃ sorted : M, Benchmarks.count_phase S = Ok sorted ∧ tallies sorted S
    ∧ Benchmarks.histogramSort (M:=M) S = Ok (groups (hm_items sorted)).
Proof.
  intros Hmax.
  destruct (count_phase_ok (M:=M) S) as (sorted & Hcount & Hm).
  { intros k. pose proof (occurrences_le_length k S). lia. }
  exists sorted. split; [done|]. split; [done|].
  unfold Benchmarks.histogramSort.
  by rewrite (histogramSort_run_tallied S sorted).
Qed.

Lemma hm_items_empty {M : Type} {HM : Hashmap M} {HL : HashmapLaws M} :
  hm_items (hm_empty : M) = [].
Proof.
  destruct (hm_items (hm_empty : M)) as [|[k v] rest] eqn:Hitems; [done|].
  assert ((k, v) ∈ hm_items (hm_empty : M)) as Hin
    by (rewrite Hitems; by left).
  apply hm_items_find in Hin. by rewrite hm_find_empty in Hin.
Qed.

(** X2.  An empty vector: the counting loop leaves the map as constructed,
    with no entry to iterate over and no key to find; no element is
    written, [index] stays 0, and the empty vector is returned. *)
Theorem histogramSort_empty {M : Type} {HM : Hashmap M} {HL : HashmapLaws M} :
  ∃ sorted : M,
    Benchmarks.count_phase [] = Ok sorted
    ∧ hm_items sorted = []
    ∧ (∀ k, hm_find sorted k = None)
    ∧ Benchmarks.histogramSort_run (M:=M) []
      = Ok {| Benchmarks.data := []; Benchmarks.index := 0;
              Benchmarks.written := [] |}
    ∧ Benchmarks.histogramSort (M:=M) [] = Ok [].
Proof.
  exists hm_empty. split; [done|]. split; [apply hm_items_empty|].
  split; [apply hm_find_empty|].
  assert (Benchmarks.histogramSort_run (M:=M) []
          = Ok {| Benchmarks.data := []; Benchmarks.index := 0;
                  Benchmarks.written := [] |}) as Hrun.
  { unfold Benchmarks.histogramSort_run, Benchmarks.count_phase.
    cbn [Benchmarks.count_into mbind Outcome_bind].
    by rewrite hm_items_empty. }
  split; [done|]. unfold Benchmarks.histogramSort. by rewrite Hrun.
Qed.

Lemma histogramSort_empty_witness :
  ∃ sorted : InsertionMap.t,
    Benchmarks.count_phase [] = Ok sorted
    ∧ hm_items sorted = []
    ∧ (∀ k, hm_find sorted k = None)
    ∧ Benchmarks.histogramSort_run (M:=InsertionMap.t) []
      = Ok {| Benchmarks.data := []; Benchmarks.index := 0;
              Benchmarks.written := [] |}
    ∧ Benchmarks.histogramSort (M:=InsertionMap.t) [] = Ok [].
Proof. exact (histogramSort_empty (HL:=InsertionMap_laws)). Defined.

(** X3.  A vector holding one value [n] times comes back unchanged, whatever
    the map. *)
Theorem histogramSort_constant {M : Type} {HM : Hashmap M}
    {HL : HashmapLaws M} (n : nat) (k : Z) :
  Z.of_nat n ≤ INT_MAX →
  Benchmarks.histogramSort (M:=M) (replicate n k) = Ok (replicate n k).
Proof.
  intros Hmax.
  destruct (histogramSort_ok (M:=M) (replicate n k))
    as (sorted & _ & Hm & ->); [by rewrite length_replicate|].
  f_equal. symmetry. apply replicate_Permutation. symmetry.
  by apply groups_items_Permutation.
Qed.

Lemma histogramSort_constant_witness :
  Benchmarks.histogramSort (M:=TrieMap.t) (replicate 4 7) = Ok (replicate 4 7).
Proof.
  apply (histogramSort_constant (HL:=TrieMap_laws) 4 7). vm_compute. discriminate.
Defined.

Lemma groups_ones items :
  Forall (λ p, p.2 = 1) items → groups items = items.*1.
Proof.
  induction 1 as [|[k c] items Hc _ IH]; [done|].
  cbn in Hc. subst c. cbn [groups]. rewrite IH. done.
Qed.

Lemma occurrences_NoDup k (l : list Z) :
  NoDup l → k ∈ l → occurrences k l = 1.
Proof.
  intros Hnd Hin. unfold occurrences.
  apply NoDup_ListNoDup in Hnd.
  pose proof (proj1 (NoDup_count_occ' Z.eq_dec l) Hnd) as Hone.
  rewrite (Hone k); [done|]. by apply list_elem_of_In.
Qed.

(** X4.  On a vector without repeated values every count is 1, and what is
    returned is the keys in the order the map iterates over them. *)
Theorem histogramSort_distinct {M : Type} {HM : Hashmap M}
    {HL : HashmapLaws M} (S : list Z) :
  NoDup S → Z.of_nat (length S) ≤ INT_MAX →
  ∃ sorted : M, Benchmarks.count_phase S = Ok sorted
    ∧ Forall (λ p, p.2 = 1) (hm_items sorted)
    ∧ Benchmarks.histogramSort (M:=M) S = Ok (hm_items sorted).*1.
Proof.
  intros Hnd Hmax.
  destruct (histogramSort_ok (M:=M) S Hmax) as (sorted & Hcount & Hm & Hout).
  assert (Forall (λ p, p.2 = 1) (hm_items sorted)) as Hones.
  { apply Forall_forall. intros [k c] Hin.
    destruct (items_tallied sorted S k c Hm Hin) as (-> & _ & HinS).
    by apply occurrences_NoDup. }
  exists sorted. split; [done|]. split; [done|].
  by rewrite Hout, groups_ones.
Qed.

Lemma histogramSort_distinct_witness :
  ∃ sorted : InsertionMap.t, Benchmarks.count_phase [5; 2; 9] = Ok sorted
    ∧ Forall (λ p, p.2 = 1) (hm_items sorted)
    ∧ Benchmarks.histogramSort (M:=InsertionMap.t) [5; 2; 9]
      = Ok (hm_items sorted).*1.
Proof.
  apply (histogramSort_distinct (HL:=InsertionMap_laws) [5; 2; 9]).
  - repeat (apply NoDup_cons_2; [rewrite ?elem_of_cons, elem_of_nil; lia|]).
    apply NoDup_nil_2.
  - vm_compute. discriminate.
Defined.

Lemma StronglySorted_replicate n (k : Z) : StronglySorted Z.le (replicate n k).
Proof.
  induction n as [|n IH]; cbn; constructor; [done|].
  apply Forall_forall. intros x Hx%elem_of_replicate_inv. lia.
Qed.

Lemma groups_sorted items :
  StronglySorted Z.le items.*1 → StronglySorted Z.le (groups items).
Proof.
  induction items as [|[k c] items IH]; intros Hs; [constructor|].
  rewrite fmap_cons in Hs. apply StronglySorted_cons in Hs as [Hall Hs].
  cbn [groups]. apply StronglySorted_app.
  split; [|split; [apply StronglySorted_replicate|by apply IH]].
  intros x1 x2 Hx1%elem_of_replicate_inv Hx2%elem_of_groups. subst x1.
  by eapply Forall_forall in Hall.
Qed.

(** X5.  With a map that iterates in ascending key order (an ordered map),
    [histogramSort] sorts: it returns the sorted permutation of its
    input. *)
Theorem histogramSort_ordered_map_sorts {M : Type} {HM : Hashmap M}
    {HL : HashmapLaws M} (S : list Z) :
  (∀ m : M, StronglySorted Z.le (hm_items m).*1) →
  Z.of_nat (length S) ≤ INT_MAX →
  ∃ out, Benchmarks.histogramSort (M:=M) S = Ok out
         ∧ StronglySorted Z.le out ∧ out ≡ₚ S.
Proof.
  intros Hordered Hmax.
  destruct (histogramSort_ok (M:=M) S Hmax) as (sorted & _ & Hm & Hout).
  exists (groups (hm_items sorted)). split; [done|]. split.
  - apply groups_sorted, Hordered.
  - by apply groups_items_Permutation.
Qed.

Lemma histogramSort_ordered_map_sorts_witness :
  ∃ out, Benchmarks.histogramSort (M:=SortedMap.t) [3; 1; 2; 3; 0; 1; 3] = Ok out
         ∧ StronglySorted Z.le out ∧ out ≡ₚ [3; 1; 2; 3; 0; 1; 3].
Proof.
  apply (histogramSort_ordered_map_sorts (HL:=SortedMap_laws)).
  - exact SortedMap_items_sorted.
  - vm_compute. discriminate.
Defined.

(** X6.  The frequency map does not depend on the order of the input: two
    vectors with the same values count to maps with the same lookups, and
    the counting of one completes when the counting of the other does. *)
Theorem count_phase_Permutation {M : Type} {HM : Hashmap M}
    {HL : HashmapLaws M} (S S' : list Z) :
  S ≡ₚ S' →
  (completes (Benchmarks.count_phase (M:=M) S) ↔
   completes (Benchmarks.count_phase (M:=M) S'))
  ∧ ∀ sorted sorted' : M,
      Benchmarks.count_phase S = Ok sorted →
      Benchmarks.count_phase S' = Ok sorted' →
      ∀ k, hm_find sorted k = hm_find sorted' k.
Proof.
  intros Hperm. split.
  - rewrite !count_phase_completes.
    split; intros Hle k; specialize (Hle k);
      by rewrite (occurrences_Permutation k _ _ Hperm) in *.
  - intros sorted sorted' Hm%count_phase_tallies Hm'%count_phase_tallies k.
    by rewrite (Hm k), (Hm' k), (occurrences_Permutation k _ _ Hperm).
Qed.

Lemma count_phase_Permutation_witness :
  (completes (Benchmarks.count_phase (M:=InsertionMap.t) [3; 1; 3]) ↔
   completes (Benchmarks.count_phase (M:=InsertionMap.t) [1; 3; 3]))
  ∧ ∀ sorted sorted' : InsertionMap.t,
      Benchmarks.count_phase [3; 1; 3] = Ok sorted →
      Benchmarks.count_phase [1; 3; 3] = Ok sorted' →
      ∀ k, hm_find sorted k = hm_find sorted' k.
Proof.
  apply (count_phase_Permutation (HL:=InsertionMap_laws) [3; 1; 3] [1; 3; 3]).
  apply (Permutation_swap 1 3 [3]).
Defined.

(** ** More about the generators *)

(** X7.  Below 2^32 the random generator of the histogram benchmark returns
    exactly for the sizes up to [INT_MAX]; from 2^31 on,
    [static_cast<int>(size)] is negative and the distribution is built
    with [a > b]. *)
Theorem Benchmarks_GenerateRandomData_size_limit {G : Type}
    {HR : StdRandom G} (size : N) :
  Z.of_N size < 4294967296 →
  (Z.of_N size ≤ INT_MAX →
   completes (Benchmarks.GenerateRandomData (G:=G) size))
  ∧ (INT_MAX < Z.of_N size →
     Benchmarks.GenerateRandomData (G:=G) size = UB BadDistributionBounds).
Proof.
  intros Hlt. split.
  - intros Hle. eexists. by apply Benchmarks_GenerateRandomData_ok.
  - intros Hgt. apply Benchmarks_GenerateRandomData_bad.
    unfold static_cast_int, INT_MAX in *.
    replace (Z.of_N size + 2147483648)
      with (Z.of_N size - 2147483648 + 1 * 4294967296) by lia.
    rewrite Z.mod_add, Z.mod_small by lia. lia.
Qed.

Lemma Benchmarks_GenerateRandomData_size_limit_witness :
  (Z.of_N 3000000000 ≤ INT_MAX →
   completes (Benchmarks.GenerateRandomData (G:=MT.state) 3000000000))
  ∧ (INT_MAX < Z.of_N 3000000000 →
     Benchmarks.GenerateRandomData (G:=MT.state) 3000000000
     = UB BadDistributionBounds).
Proof.
  apply (Benchmarks_GenerateRandomData_size_limit (G:=MT.state) 3000000000).
  by vm_compute.
Defined.

(** X8.  From 2^30 up to [INT_MAX] the generator of the random-access
    benchmark overflows in [static_cast<int>(size) * 2], and the trial
    ends there, before the map is built; below 2^30 it returns. *)
Theorem RandomAccess_GenerateRandomData_size_limit {G : Type}
    {HR : StdRandom G} {M : Type} {HM : Hashmap M} (size : N)
    (iterations : nat) :
  Z.of_N size ≤ INT_MAX →
  (Z.of_N size < 1073741824 →
   completes (RandomAccess.GenerateRandomData (G:=G) size))
  ∧ (1073741824 ≤ Z.of_N size →
     RandomAccess.GenerateRandomData (G:=G) size = UB SignedOverflow
     ∧ RandomAccess.BM_RandomAccess (G:=G) (M:=M) size iterations
       = UB SignedOverflow).
Proof.
  intros Hmax. split.
  - intros Hlt. eexists. apply RandomAccess_GenerateRandomData_ok. int_lia.
  - intros Hge.
    assert (RandomAccess.GenerateRandomData (G:=G) size = UB SignedOverflow)
      as Hub.
    { unfold RandomAccess.GenerateRandomData.
      rewrite static_cast_int_small by done.
      unfold int_mul, int_result, in_int.
      destruct (Z.leb_spec (Z.of_N size * 2) INT_MAX); [int_lia|].
      by rewrite andb_false_r. }
    split; [done|]. unfold RandomAccess.BM_RandomAccess. by rewrite Hub.
Qed.

Lemma RandomAccess_GenerateRandomData_size_limit_witness :
  (Z.of_N 1073741824 < 1073741824 →
   completes (RandomAccess.GenerateRandomData (G:=MT.state) 1073741824))
  ∧ (1073741824 ≤ Z.of_N 1073741824 →
     RandomAccess.GenerateRandomData (G:=MT.state) 1073741824
     = UB SignedOverflow
     ∧ RandomAccess.BM_RandomAccess (G:=MT.state) (M:=TrieMap.t) 1073741824 1
       = UB SignedOverflow).
Proof.
  apply (RandomAccess_GenerateRandomData_size_limit (G:=MT.state)
           (M:=TrieMap.t) 1073741824 1).
  vm_compute. discriminate.
Defined.

(** ** The histogram trial *)





(** Two tables of one type that iterate in opposite orders: the two
    iterations return different vectors. *)
Example BM_HistogramSort_two_tables :
  Benchmarks.BM_HistogramSort (G:=MT.state) 5
    [TrieMap.hashmap; ReversedTrieMap.hashmap]
  = Ok [[5; 4; 4; 2; 1]; [1; 2; 4; 4; 5]].
Proof. by vm_compute. Qed.

(** ** More about the random-access trial *)

Lemma length_remove_dups_le (l : list Z) :
  (length (remove_dups l) ≤ length l)%nat.
Proof.
  induction l as [|x l IH]; cbn; [done|]. case_decide; cbn; lia.
Qed.

(** X9.  After the setup loop [map.find(k)] finds exactly the generated keys,
    each mapped to itself; a key that was not generated is a miss.  The
    map holds one entry per distinct key, so no more entries than keys
    were generated. *)
Theorem populate_exact {M : Type} {HM : Hashmap M} {HL : HashmapLaws M}
    (size : N) (data : list Z) :
  (∀ k, hm_find (RandomAccess.populate (hm_reserve (hm_empty : M) size) data) k
        = if decide (k ∈ data) then Some k else None)
  ∧ hm_items (RandomAccess.populate (hm_reserve (hm_empty : M) size) data)
    ≡ₚ (λ k, (k, k)) <$> remove_dups data
  ∧ (length (hm_items
               (RandomAccess.populate (hm_reserve (hm_empty : M) size) data))
     ≤ length data)%nat.
Proof.
  set (map := RandomAccess.populate (hm_reserve (hm_empty : M) size) data).
  assert (∀ k, hm_find map k = if decide (k ∈ data) then Some k else None)
    as Hfind.
  { intros k. subst map.
    by rewrite populate_find, hm_find_reserve, hm_find_empty. }
  assert (hm_items map ≡ₚ (λ k, (k, k)) <$> remove_dups data) as Hperm.
  { apply NoDup_Permutation.
    - eapply NoDup_fmap_1, hm_items_NoDup.
    - apply NoDup_fmap_2; [by intros k1 k2 [= ->]|apply NoDup_remove_dups].
    - intros [k v]. rewrite hm_items_find, Hfind, list_elem_of_fmap.
      split.
      + case_decide as Hin; [|done]. intros [= <-].
        exists k. split; [done|]. by apply elem_of_remove_dups.
      + intros (k' & [= ? ?] & Hin). subst k v.
        rewrite elem_of_remove_dups in Hin. by rewrite decide_True. }
  split; [done|]. split; [done|].
  rewrite Hperm, length_fmap. apply length_remove_dups_le.
Qed.

Lemma populate_exact_witness :
  (∀ k, hm_find (RandomAccess.populate
                   (hm_reserve (hm_empty : InsertionMap.t) 3) [4; 8; 4]) k
        = if decide (k ∈ [4; 8; 4]) then Some k else None)
  ∧ hm_items (RandomAccess.populate
                (hm_reserve (hm_empty : InsertionMap.t) 3) [4; 8; 4])
    ≡ₚ (λ k, (k, k)) <$> remove_dups [4; 8; 4]
  ∧ (length (hm_items
               (RandomAccess.populate
                  (hm_reserve (hm_empty : InsertionMap.t) 3%N)
                  [4%Z; 8%Z; 4%Z]))
     ≤ length [4%Z; 8%Z; 4%Z])%nat.
Proof. exact (populate_exact (HL:=InsertionMap_laws) 3 [4; 8; 4]). Defined.

(** Running [a + b] passes is running [a] passes and then [b] more from
    the cursor the first run left. *)
Lemma measured_loop_split {M : Type} {HM : Hashmap M} (map : M)
    (lookups : list Z) (a b : nat) (lookup_idx : Z) :
  RandomAccess.measured_loop map lookups (a + b) lookup_idx
  = '(passes1, lookup_idx) ← RandomAccess.measured_loop map lookups a lookup_idx;
    '(passes2, lookup_idx) ← RandomAccess.measured_loop map lookups b lookup_idx;
    Ok (passes1 ++ passes2, lookup_idx).
Proof.
  revert lookup_idx. induction a as [|a IH]; intros lookup_idx.
  - cbn [Nat.add RandomAccess.measured_loop mbind Outcome_bind].
    by destruct (RandomAccess.measured_loop map lookups b lookup_idx)
      as [[passes2 final]|].
  - cbn [Nat.add RandomAccess.measured_loop].
    destruct (RandomAccess.lookup_pass map lookups lookup_idx)
      as [[pass next]|]; [|done].
    cbn [mbind Outcome_bind]. rewrite IH.
    destruct (RandomAccess.measured_loop map lookups a next)
      as [[passes1 mid]|]; [|done].
    cbn [mbind Outcome_bind].
    by destruct (RandomAccess.measured_loop map lookups b mid)
      as [[passes2 final]|].
Qed.

Section Laps.
Context {M : Type} {HM : Hashmap M}.
Variables (map : M) (lookups : list Z).
Hypothesis nonempty : (0 < length lookups)%nat.
Hypothesis fits_size_t : Z.of_nat (length lookups) ≤ SIZE_MAX.

(** One lap: as many passes as there are lookup keys. *)
Lemma measured_loop_lap :
  ∃ passes,
    RandomAccess.measured_loop map lookups (length lookups) 0 = Ok (passes, 0)
    ∧ RandomAccess.key <$> passes = lookups
    ∧ Forall (λ pass, RandomAccess.found pass
                      = hm_find map (RandomAccess.key pass)) passes.
Proof.
  destruct (measured_loop_ok map lookups nonempty fits_size_t
              (length lookups) 0) as (passes & Hloop & Hlen & Hall); [lia|].
  exists passes. rewrite Z.add_0_l, Z.mod_same in Hloop by lia.
  split; [done|]. split.
  - apply list_eq. intros j. rewrite list_lookup_fmap.
    destruct (passes !! j) as [pass|] eqn:Hj; cbn.
    + destruct (Hall j pass Hj) as (Hc & Hkey & _).
      apply lookup_lt_Some in Hj.
      rewrite Hc, Z.add_0_l, Z.mod_small, Nat2Z.id in Hkey by lia. done.
    + apply lookup_ge_None in Hj. symmetry. apply lookup_ge_None. lia.
  - apply Forall_lookup_2. intros j pass Hj.
    by destruct (Hall j pass Hj) as (_ & _ & Hf).
Qed.

Lemma measured_loop_laps_aux (laps : nat) :
  ∃ passes,
    RandomAccess.measured_loop map lookups (laps * length lookups) 0
    = Ok (passes, 0)
    ∧ RandomAccess.key <$> passes = concat (replicate laps lookups)
    ∧ Forall (λ pass, RandomAccess.found pass
                      = hm_find map (RandomAccess.key pass)) passes.
Proof.
  induction laps as [|laps (rest & Hrest & Hkeys & Hfound)].
  - exists []. by split.
  - destruct measured_loop_lap as (lap & Hlap & Hlapkeys & Hlapfound).
    exists (lap ++ rest). cbn [Nat.mul]. rewrite measured_loop_split, Hlap.
    cbn [mbind Outcome_bind]. rewrite Hrest. cbn [mbind Outcome_bind].
    split; [done|]. split.
    + by rewrite fmap_app, Hlapkeys, Hkeys.
    + by apply Forall_app.
Qed.
End Laps.

(** X11.  Whole laps of the measured loop: [laps] times [N] iterations over
    [N > 0] lookup keys make that many passes and bring the cursor back to
    0; the keys looked up are the lookup vector, in order, [laps] times
    over; each pass records what [map.find] gives for its key. *)
Theorem measured_loop_laps {M : Type} {HM : Hashmap M} (map : M)
    (lookups : list Z) (laps : nat) :
  (0 < length lookups)%nat →
  Z.of_nat (length lookups) ≤ SIZE_MAX →
  ∃ passes,
    RandomAccess.measured_loop map lookups (laps * length lookups) 0
    = Ok (passes, 0)
    ∧ length passes = (laps * length lookups)%nat
    ∧ RandomAccess.key <$> passes = concat (replicate laps lookups)
    ∧ Forall (λ pass, RandomAccess.found pass
                      = hm_find map (RandomAccess.key pass)) passes.
Proof.
  intros Hpos Hfit.
  destruct (measured_loop_laps_aux map lookups Hpos Hfit laps)
    as (passes & Hloop & Hkeys & Hfound).
  exists passes. split; [done|]. split; [|by split].
  rewrite <-(length_fmap RandomAccess.key), Hkeys.
  clear. induction laps as [|laps IH]; [done|].
  cbn [replicate concat]. rewrite length_app, IH. lia.
Qed.

Lemma measured_loop_laps_witness :
  ∃ passes,
    RandomAccess.measured_loop (M:=InsertionMap.t) [(6, 6)] [5; 6; 7]
      (2 * length [5; 6; 7]) 0
    = Ok (passes, 0)
    ∧ length passes = (2 * length [5%Z; 6%Z; 7%Z])%nat
    ∧ RandomAccess.key <$> passes = concat (replicate 2 [5; 6; 7])
    ∧ Forall (λ pass, RandomAccess.found pass
                      = hm_find (M:=InsertionMap.t) [(6, 6)]
                          (RandomAccess.key pass)) passes.
Proof.
  apply (measured_loop_laps (M:=InsertionMap.t) [(6, 6)] [5; 6; 7] 2).
  - cbn. lia.
  - vm_compute. discriminate.
Defined.

Lemma concat_replicate_Permutation (laps : nat) (l1 l2 : list Z) :
  l1 ≡ₚ l2 → concat (replicate laps l1) ≡ₚ concat (replicate laps l2).
Proof.
  intros Hperm. induction laps as [|laps IH]; [done|].
  cbn [replicate concat]. by apply Permutation_app.
Qed.

Lemma elem_of_concat_replicate (laps : nat) (l : list Z) x :
  x ∈ concat (replicate laps l) → x ∈ l.
Proof.
  induction laps as [|laps IH]; cbn [replicate concat].
  - by intros ?%elem_of_nil.
  - intros [?|?]%elem_of_app; auto.
Qed.

(** X12.  Whole laps of the trial: over [laps] times [N] iterations every
    generated key is looked up [laps] times for each time it was generated
    (the keys looked up are a permutation of the generated data repeated
    [laps] times), every lookup is a hit, and the cursor ends at 0. *)
Theorem BM_RandomAccess_laps {G : Type} {HR : StdRandom G}
    {HRL : StdRandomLaws G} {M : Type} {HM : Hashmap M} {HL : HashmapLaws M}
    (size : N) (laps : nat) (data : list Z) :
  (0 < size)%N → Z.of_N size ≤ SIZE_MAX →
  RandomAccess.GenerateRandomData (G:=G) size = Ok data →
  ∃ passes,
    RandomAccess.BM_RandomAccess (G:=G) (M:=M) size (laps * N.to_nat size)
    = Ok (passes, 0)
    ∧ RandomAccess.key <$> passes ≡ₚ concat (replicate laps data)
    ∧ Forall (λ pass, RandomAccess.found pass = Some (RandomAccess.key pass))
             passes.
Proof.
  intros Hpos Hfit Hdata.
  pose proof (RandomAccess_GenerateRandomData_length size data Hdata) as Hlen.
  unfold RandomAccess.BM_RandomAccess, RandomAccess.trial. rewrite Hdata.
  cbn [mbind Outcome_bind].
  pose proof (shuffle_Permutation data (mt19937 123)) as Hperm.
  set (lookups := (shuffle data (mt19937 123)).1) in *.
  pose proof (Permutation_length Hperm) as Hlen'.
  destruct (measured_loop_laps_aux
              (RandomAccess.populate (hm_reserve hm_empty size) data)
              lookups ltac:(lia) ltac:(lia) laps)
    as (passes & Hloop & Hkeys & Hfound).
  exists passes. rewrite <-Hlen, <-Hlen'. split; [done|]. split.
  - rewrite Hkeys. by apply concat_replicate_Permutation.
  - apply Forall_forall. intros pass Hin.
    pose proof (proj1 (Forall_forall _ _) Hfound pass Hin) as Hf.
    rewrite Hf, populate_find. rewrite decide_True; [done|].
    rewrite <-Hperm.
    assert (RandomAccess.key pass ∈ RandomAccess.key <$> passes) as Hk
      by (apply list_elem_of_fmap; by exists pass).
    rewrite Hkeys in Hk. by apply elem_of_concat_replicate in Hk.
Qed.

Lemma BM_RandomAccess_laps_witness :
  ∃ passes,
    RandomAccess.BM_RandomAccess (G:=MT.state) (M:=TrieMap.t) 4
      (2 * N.to_nat 4)
    = Ok (passes, 0)
    ∧ RandomAccess.key <$> passes ≡ₚ concat (replicate 2 [3; 7; 8; 1])
    ∧ Forall (λ pass, RandomAccess.found pass = Some (RandomAccess.key pass))
             passes.
Proof.
  apply (BM_RandomAccess_laps (HRL:=MT_laws) (HL:=TrieMap_laws) 4 2 [3; 7; 8; 1]).
  - reflexivity.
  - vm_compute. discriminate.
  - by vm_compute.
Defined.

(** X13.  With size 0 no key is generated and the lookup vector is empty: a
    trial of no iterations completes without a lookup, and with at least
    one iteration the first pass reads [lookups[0]] outside the vector. *)
Theorem BM_RandomAccess_no_keys {G : Type} {HR : StdRandom G}
    {HRL : StdRandomLaws G} {M : Type} {HM : Hashmap M} (iterations : nat) :
  RandomAccess.BM_RandomAccess (G:=G) (M:=M) 0 0 = Ok ([], 0)
  ∧ RandomAccess.BM_RandomAccess (G:=G) (M:=M) 0 (S iterations)
    = UB OutOfBounds.
Proof.
  assert ((shuffle (G:=G) [] (mt19937 123)).1 = []) as Hshuffle
    by (apply Permutation_nil_r, shuffle_Permutation).
  split.
  - reflexivity.
  - unfold RandomAccess.BM_RandomAccess.
    change (RandomAccess.GenerateRandomData (G:=G) 0) with (Ok ([] : list Z)).
    cbn [mbind Outcome_bind]. unfold RandomAccess.trial.
    rewrite Hshuffle. reflexivity.
Qed.

Lemma BM_RandomAccess_no_keys_witness :
  RandomAccess.BM_RandomAccess (G:=MT.state) (M:=TrieMap.t) 0 0 = Ok ([], 0)
  ∧ RandomAccess.BM_RandomAccess (G:=MT.state) (M:=TrieMap.t) 0 (S 2)
    = UB OutOfBounds.
Proof. exact (BM_RandomAccess_no_keys (HRL:=MT_laws) (M:=TrieMap.t) 2). Defined.
